(** * font_family_util: the GDI <-> DirectWrite family-name tables

    A shallow embedding of [src/core/utils/font_family_util] (the logger of
    [logging.cpp] and the enumeration, resolution and lookup functions of
    [font_family_util.cpp]) together with the properties of the two
    process-wide tables.

    Conventions of the embedding.
    - The process state is the two [std::unordered_map] globals and the
      lines written to [std::cerr].
    - A function is a state transformer that either returns or ends the
      process through [std::terminate] (an exception that leaves a
      [noexcept] function).
    - Everything the operating system, DirectWrite, the build and the C++
      runtime decide is read from a [World] record or from the COM objects
      it holds; the functions of the source are embedded over arbitrary
      answers.
    - Exceptions are modelled where the source has a handler for them and
      for the encoding converter, whose failure depends on the data.
      Reference counts and the lifetime of buffers are not modelled.
    - A C string is a [string] (or a list of UTF-16 code units) without its
      terminator; a null pointer result is [None]. *)

From stdpp Require Import gmap strings list fin_maps pretty.

Local Open Scope Z_scope.

(** ** Machine types *)

Definition HRESULT := Z.
Definition UINT32 := N.
Definition wchar_t := N.

Definition UINT_MAX : UINT32 := 4294967295%N.

(** [static_cast<int>] of a [UINT32]. *)
Definition int_of_UINT32 (n : UINT32) : Z :=
  if Z.of_N n <? 2 ^ 31 then Z.of_N n else Z.of_N n - 2 ^ 32.

(** [n + 1] in [UINT32] arithmetic. *)
Definition UINT32_succ (n : UINT32) : UINT32 := ((n + 1) mod 2 ^ 32)%N.

(** The characters a [const wchar_t*] designates: those before the first
    terminator of the buffer it points into. *)
Fixpoint c_wstr (buf : list wchar_t) : list wchar_t :=
  match buf with
  | [] => []
  | c :: buf' => if (c =? 0)%N then [] else c :: c_wstr buf'
  end.

(** A wide literal [L"..."] of ASCII characters. *)
Definition L (s : string) : list wchar_t :=
  Ascii.N_of_ascii <$> String.list_ascii_of_string s.

(** The result of a COM call, as the source reads it: the test [FAILED(hr)]
    and, when it is false, the out-parameters. *)
Inductive hresult (A : Type) : Type :=
| SUCCEEDED (a : A)
| FAILED (hr : HRESULT).
Global Arguments SUCCEEDED {A} a.
Global Arguments FAILED {A} hr.

(** ** Exceptions

    The handlers of the source tell [std::out_of_range] from every other
    class derived from [std::exception]. *)

Inductive exception : Type :=
| std_out_of_range (msg : string)
| std_exception (msg : string).

Definition what (e : exception) : string :=
  match e with std_out_of_range msg | std_exception msg => msg end.

(** ** Process state *)

Record State : Type := mkState {
  gdi_to_directwrite : gmap string string;
  directwrite_to_gdi : gmap string string;
  cerr : list string
}.

Definition initial_state : State :=
  {| gdi_to_directwrite := ∅; directwrite_to_gdi := ∅; cerr := [] |}.

Inductive Outcome (A : Type) : Type :=
| Returned (a : A) (s : State)
| Terminated.
Global Arguments Returned {A} a s.
Global Arguments Terminated {A}.

Definition M (A : Type) : Type := State → Outcome A.

Global Instance M_ret : MRet M := λ A a s, Returned a s.
Global Instance M_bind : MBind M := λ A B f m s,
  match m s with
  | Returned a s' => f a s'
  | Terminated => Terminated
  end.

Definition terminate {A} : M A := λ _, Terminated.
Definition get_state : M State := λ s, Returned s s.

(** [std::cerr << ... << std::endl] *)
Definition write_cerr (line : string) : M unit := λ s,
  Returned tt {| gdi_to_directwrite := gdi_to_directwrite s;
                 directwrite_to_gdi := directwrite_to_gdi s;
                 cerr := cerr s ++ [line] |}.

(** [gdi_to_directwrite[k] = v] *)
Definition gdi_to_directwrite_assign (k v : string) : M unit := λ s,
  Returned tt {| gdi_to_directwrite := <[k := v]> (gdi_to_directwrite s);
                 directwrite_to_gdi := directwrite_to_gdi s;
                 cerr := cerr s |}.

(** [directwrite_to_gdi[k] = v] *)
Definition directwrite_to_gdi_assign (k v : string) : M unit := λ s,
  Returned tt {| gdi_to_directwrite := gdi_to_directwrite s;
                 directwrite_to_gdi := <[k := v]> (directwrite_to_gdi s);
                 cerr := cerr s |}.

(** [std::unordered_map::at] *)
Definition unordered_map_at (m : gmap string string) (k : string)
  : exception + string :=
  match m !! k with
  | Some v => inr v
  | None => inl (std_out_of_range "invalid unordered_map<K, T> key")
  end.

(** A [for] loop over the listed indices; [continue] ends the body. *)
Fixpoint for_each (indices : list Z) (body : Z → M unit) : M unit :=
  match indices with
  | [] => mret tt
  | i :: rest => body i ;; for_each rest body
  end.

(** ** logging.hpp: [namespace logging] *)

Inductive LogLevel : Type :=
| LOG_DEBUG | LOG_INFO | LOG_WARNING | LOG_ERROR | LOG_CRITICAL.

(** The enumerators' values, which [log_level <= LogLevel::...] compares. *)
Definition LogLevel_value (l : LogLevel) : Z :=
  match l with
  | LOG_DEBUG => 10
  | LOG_INFO => 20
  | LOG_WARNING => 30
  | LOG_ERROR => 40
  | LOG_CRITICAL => 50
  end.

Record Logger : Type := mkLogger { name : string; log_level : LogLevel }.

(** ** The platform

    The COM interfaces of DirectWrite that the source calls, each a record
    of its methods, and the [World] that holds what the operating system,
    the build and the C++ runtime answer. *)

Record LOGFONTW : Type := { lfFaceName : list wchar_t }.

(** An [IDWriteFont*]. *)
Definition IDWriteFont := N.

Record IDWriteGdiInterop : Type := {
  (** out-parameters: the [LOGFONTW] and [isSystemFont] *)
  ConvertFontToLOGFONT : IDWriteFont → hresult (LOGFONTW * bool)
}.

Record IDWriteLocalizedStrings : Type := {
  (** out-parameters: [index] and [exists] *)
  FindLocaleName : list wchar_t → hresult (UINT32 * bool);
  GetStringLength : UINT32 → hresult UINT32;
  (** [GetString index buffer size]; the out-parameter is the buffer *)
  GetString : UINT32 → UINT32 → hresult (list wchar_t)
}.

Record IDWriteFontFamily : Type := {
  (** the pointer's value, which [init] prints *)
  address : N;
  GetFamilyNames : hresult IDWriteLocalizedStrings;
  (** with the normal weight, stretch and style the source passes *)
  GetFirstMatchingFont : hresult IDWriteFont
}.

Record IDWriteFontCollection : Type := {
  GetFontFamilyCount : UINT32;
  GetFontFamily : UINT32 → hresult IDWriteFontFamily
}.

Record IDWriteFactory : Type := {
  GetSystemFontCollection : hresult IDWriteFontCollection;
  GetGdiInterop : hresult IDWriteGdiInterop
}.

Record World : Type := mkWorld {
  (** the build's [LOG_LEVEL] macro *)
  LOG_LEVEL : LogLevel;
  (** the compiler's [__FUNCTION__] inside the function of that name *)
  FUNCTION : string → string;
  (** the message [FormatMessage] allocates, [None] when it returns 0 *)
  FormatMessage : HRESULT → option string;
  GetLastError : N;
  (** the locale name, [None] when the call returns 0 *)
  GetUserDefaultLocaleName : option (list wchar_t);
  (** [new wchar_t[n]]: the exception it throws, if any *)
  new_wchar_t : N → option exception;
  (** [std::wstring_convert<std::codecvt_utf8_utf16<wchar_t>>::to_bytes] *)
  to_bytes : list wchar_t → exception + string;
  (** the [std::string] temporary built from a [const char*]: the
      exception its constructor throws, if any *)
  std_string : string → option exception;
  DWriteCreateFactory : hresult IDWriteFactory
}.

(** ** logging.cpp *)

Definition log_debug (l : Logger) (msg : string) : M unit :=
  if LogLevel_value (log_level l) <=? LogLevel_value LOG_DEBUG
  then write_cerr ("DEBUG:" +:+ name l +:+ ":" +:+ msg)
  else mret tt.


Definition log_warning (l : Logger) (msg : string) : M unit :=
  if LogLevel_value (log_level l) <=? LogLevel_value LOG_WARNING
  then write_cerr ("WARNING:" +:+ name l +:+ ":" +:+ msg)
  else mret tt.

Definition log_error (l : Logger) (msg : string) : M unit :=
  if LogLevel_value (log_level l) <=? LogLevel_value LOG_ERROR
  then write_cerr ("ERROR:" +:+ name l +:+ ":" +:+ msg)
  else mret tt.


(** [std::to_string] of an unsigned integer. *)
Definition to_string (n : N) : string := pretty n.

Definition get_win_error_msg (w : World) (r : HRESULT) : M string :=
  match FormatMessage w r with
  | None =>
      let logger := mkLogger (FUNCTION w "get_win_error_msg") LOG_WARNING in
      log_error logger
        ("FormatMessage failed with : " +:+ to_string (GetLastError w)) ;;
      mret ""
  | Some msg => mret msg
  end.



(** ** font_family_util.cpp *)

Definition logger (w : World) : Logger :=
  mkLogger "font_family_util" (LOG_LEVEL w).

Definition get_family_name_of_cur_locale (w : World)
    (font_family : IDWriteFontFamily) : M (option string) :=
  locale_name ←
    match GetUserDefaultLocaleName w with
    | Some locale_name => mret locale_name
    | None =>
        log_warning (logger w)
          "Failed to get the default locale. Defaulting to en_us" ;;
        mret (L "en_us")
    end;
  match GetFamilyNames font_family with
  | FAILED hr =>
      msg ← get_win_error_msg w hr;
      log_error (logger w) ("Getting family names failed" +:+ msg) ;;
      mret None
  | SUCCEEDED family_names =>
  match FindLocaleName family_names locale_name with
  | FAILED hr =>
      msg ← get_win_error_msg w hr;
      log_error (logger w)
        ("Getting a family name of the current locale failed : " +:+ msg) ;;
      mret None
  | SUCCEEDED (family_name_index, is_exist) =>
  match GetStringLength family_names family_name_index with
  | FAILED hr =>
      msg ← get_win_error_msg w hr;
      log_error (logger w)
        ("Getting the length of the family name failed : " +:+ msg) ;;
      mret None
  | SUCCEEDED family_name_len =>
  match new_wchar_t w (UINT32_succ family_name_len) with
  | Some e =>
      log_error (logger w) ("Heap allocation failed : " +:+ what e) ;;
      mret None
  | None =>
  match GetString family_names family_name_index
          (UINT32_succ family_name_len) with
  | FAILED hr =>
      msg ← get_win_error_msg w hr;
      log_error (logger w)
        ("Getting the string of the family name(object) failed : " +:+ msg) ;;
      mret None
  | SUCCEEDED family_name =>
  match to_bytes w (c_wstr family_name) with
  | inl e => terminate (* no handler, and the function is noexcept *)
  | inr result => mret (Some result)
  end end end end end end.

Definition get_gdi_and_directwrite_family_name (w : World)
    (factory : IDWriteFactory) (font_family : IDWriteFontFamily)
  : M (option (string * string)) :=
  get_family_name_of_cur_locale_result ←
    get_family_name_of_cur_locale w font_family;
  match get_family_name_of_cur_locale_result with
  | None =>
      log_error (logger w) "get_family_name_of_cur_locale() failed" ;;
      mret None
  | Some directwrite_family_name =>
  match GetFirstMatchingFont font_family with
  | FAILED hr =>
      msg ← get_win_error_msg w hr;
      log_error (logger w) ("GetFirstMatchingFont() failed : " +:+ msg) ;;
      mret None
  | SUCCEEDED dwrite_font =>
  match GetGdiInterop factory with
  | FAILED hr =>
      msg ← get_win_error_msg w hr;
      log_error (logger w) ("GetGdiInterop() failed : " +:+ msg) ;;
      mret None
  | SUCCEEDED interop =>
  match ConvertFontToLOGFONT interop dwrite_font with
  | FAILED hr =>
      msg ← get_win_error_msg w hr;
      log_error (logger w) ("ConvertFontToLOGFONT() failed : " +:+ msg) ;;
      mret None
  | SUCCEEDED (lf, is_system_font) =>
  match to_bytes w (c_wstr (lfFaceName lf)) with
  | inl e =>
      log_error (logger w) ("Encoding converter failed : " +:+ what e) ;;
      mret None
  | inr gdi_family_name =>
      mret (Some (gdi_family_name, directwrite_family_name))
  end end end end end.

(** The body of the loop of [init] at index [i]. *)
Definition init_family (w : World) (factory : IDWriteFactory)
    (font_collection : IDWriteFontCollection) (i : Z) : M unit :=
  match GetFontFamily font_collection (Z.to_N i) with
  | FAILED hr =>
      msg ← get_win_error_msg w hr;
      log_error (logger w) ("GetFontFamily() failed : " +:+ msg)
  | SUCCEEDED font_family =>
      get_names_result ←
        get_gdi_and_directwrite_family_name w factory font_family;
      match get_names_result with
      | None =>
          log_warning (logger w)
            ("Getting gdi and directwrite family name failed for IDWriteFontFamily : "
             +:+ to_string (address font_family))
      | Some (gdi_family_name, directwrite_family_name) =>
          gdi_to_directwrite_assign gdi_family_name directwrite_family_name ;;
          directwrite_to_gdi_assign directwrite_family_name gdi_family_name ;;
          log_debug (logger w)
            (gdi_family_name +:+ "(gdi) : " +:+ directwrite_family_name
             +:+ "(directwrite)")
      end
  end.

Definition init (w : World) : M bool :=
  match DWriteCreateFactory w with
  | FAILED hr =>
      msg ← get_win_error_msg w hr;
      log_error (logger w) ("Failed to create a DWrite factory : " +:+ msg) ;;
      mret false
  | SUCCEEDED factory =>
  match GetSystemFontCollection factory with
  | FAILED hr =>
      msg ← get_win_error_msg w hr;
      log_error (logger w) ("GetSystemFontCollection() failed : " +:+ msg) ;;
      mret false
  | SUCCEEDED font_collection =>
      let family_count := int_of_UINT32 (GetFontFamilyCount font_collection) in
      for_each (seqZ 0 family_count) (init_family w factory font_collection) ;;
      mret true
  end end.

Definition cleanup : M unit := mret tt.

(** The operand of [return] inside the [try] block of a lookup: the
    [std::string] temporary, then [at]. *)
Definition try_at (w : World) (table : gmap string string) (key : string)
  : exception + string :=
  match std_string w key with
  | Some e => inl e
  | None => unordered_map_at table key
  end.

Definition get_gdi_family_from_directwrite (w : World)
    (direct_write_family : string) : M (option string) :=
  s ← get_state;
  match try_at w (directwrite_to_gdi s) direct_write_family with
  | inr value => mret (Some value)
  | inl (std_out_of_range _) => mret None
  | inl (std_exception msg) =>
      log_error (logger w)
        ("an unknown exception occured in "
         +:+ FUNCTION w "get_gdi_family_from_directwrite" +:+ " : " +:+ msg) ;;
      mret None
  end.

Definition get_directwrite_family_from_gdi (w : World)
    (gdi_family : string) : M (option string) :=
  s ← get_state;
  match try_at w (gdi_to_directwrite s) gdi_family with
  | inr value => mret (Some value)
  | inl (std_out_of_range _) => mret None
  | inl (std_exception msg) =>
      log_error (logger w)
        ("an unknown exception occured in "
         +:+ FUNCTION w "get_directwrite_family_from_gdi" +:+ " : " +:+ msg) ;;
      mret None
  end.

(** ** DirectWrite objects built from tables

    The records above leave every answer of the platform open.  The objects
    below answer from a table, the way the platform's documentation
    describes it; the claims that speak of a family's table of localized
    names are stated on them, and the examples are built from them. *)

Definition E_FAIL : HRESULT := -2147467259.
Definition E_NOT_SUFFICIENT_BUFFER : HRESULT := -2147024774.

(** The element at a [UINT32] index. *)
Fixpoint lookupN {A} (l : list A) (i : N) : option A :=
  match l with
  | [] => None
  | x :: l' => if (i =? 0)%N then Some x else lookupN l' (N.pred i)
  end.

(** The index, counted from [i], of the first variant whose locale name
    the platform's comparison [matches] accepts for [locale_name]. *)
Fixpoint find_locale (matches : list wchar_t → list wchar_t → bool)
    (locale_name : list wchar_t)
    (variants : list (list wchar_t * list wchar_t)) (i : N) : option N :=
  match variants with
  | [] => None
  | (variant_locale, _) :: variants' =>
      if matches locale_name variant_locale then Some i
      else find_locale matches locale_name variants' (N.succ i)
  end.

Record LocalizedTable : Type := {
  (** locale name and string of each variant, in index order *)
  variants : list (list wchar_t * list wchar_t);
  (** the platform's comparison of locale names *)
  locale_matches : list wchar_t → list wchar_t → bool;
  (** failures of the platform's own, per method *)
  FindLocaleName_error : option HRESULT;
  GetStringLength_error : option HRESULT;
  GetString_error : option HRESULT
}.

(** Modelled from the spec: the platform's [IDWriteLocalizedStrings], "the
    family's table of localized name variants", which is not code of the
    repository.  As DirectWrite documents it, [FindLocaleName] succeeds when
    no variant matches, with [exists = FALSE] and [index = UINT_MAX];
    [GetStringLength] and [GetString] fail on an index that is not in the
    table, and [GetString] fails on a buffer without room for the string
    and its terminator. *)
Definition localized_strings (t : LocalizedTable) : IDWriteLocalizedStrings :=
  {| FindLocaleName locale_name :=
       match FindLocaleName_error t with
       | Some hr => FAILED hr
       | None =>
           match find_locale (locale_matches t) locale_name (variants t) 0 with
           | Some index => SUCCEEDED (index, true)
           | None => SUCCEEDED (UINT_MAX, false)
           end
       end;
     GetStringLength index :=
       match GetStringLength_error t with
       | Some hr => FAILED hr
       | None =>
           match lookupN (variants t) index with
           | Some (_, str) => SUCCEEDED (N.of_nat (length str))
           | None => FAILED E_FAIL
           end
       end;
     GetString index size :=
       match GetString_error t with
       | Some hr => FAILED hr
       | None =>
           match lookupN (variants t) index with
           | Some (_, str) =>
               if (N.of_nat (length str) <? size)%N
               then SUCCEEDED (str ++ [0%N])
               else FAILED E_NOT_SUFFICIENT_BUFFER
           | None => FAILED E_FAIL
           end
       end |}.

(** Modelled from the spec: the platform's system font collection, "a
    snapshot of all installed font families" indexed [[0, count)]; an entry
    is the answer of [GetFontFamily] at its index. *)
Definition font_collection (families : list (hresult IDWriteFontFamily))
  : IDWriteFontCollection :=
  {| GetFontFamilyCount := N.of_nat (length families);
     GetFontFamily index := default (FAILED E_FAIL) (lookupN families index) |}.

(** *** A reference encoding converter

    UTF-16 to UTF-8, for the example worlds.  It rejects a surrogate that
    has no partner; [to_bytes] throws [std::range_error] on a high
    surrogate followed by a unit that is no low surrogate, the case the
    examples use. *)

Definition string_of_bytes (bytes : list N) : string :=
  foldr (λ b s, String (Ascii.ascii_of_N b) s) EmptyString bytes.

Definition utf8_of_code_point (c : N) : list N :=
  (if c <? 128 then [c]
   else if c <? 2048 then [192 + c / 64; 128 + c mod 64]
   else if c <? 65536 then
     [224 + c / 4096; 128 + (c / 64) mod 64; 128 + c mod 64]
   else
     [240 + c / 262144; 128 + (c / 4096) mod 64; 128 + (c / 64) mod 64;
      128 + c mod 64])%N.

Definition is_high_surrogate (c : wchar_t) : bool :=
  ((55296 <=? c) && (c <? 56320))%N.
Definition is_low_surrogate (c : wchar_t) : bool :=
  ((56320 <=? c) && (c <? 57344))%N.

Fixpoint utf8_of_utf16 (units : list wchar_t) : exception + list N :=
  match units with
  | [] => inr []
  | c :: rest =>
      if is_high_surrogate c then
        match rest with
        | lo :: rest' =>
            if is_low_surrogate lo then
              match utf8_of_utf16 rest' with
              | inr bytes =>
                  inr (utf8_of_code_point
                         (65536 + (c - 55296) * 1024 + (lo - 56320))%N
                       ++ bytes)
              | inl e => inl e
              end
            else inl (std_exception "bad conversion")
        | [] => inl (std_exception "bad conversion")
        end
      else if is_low_surrogate c then inl (std_exception "bad conversion")
      else
        match utf8_of_utf16 rest with
        | inr bytes => inr (utf8_of_code_point c ++ bytes)
        | inl e => inl e
        end
  end.

Definition reference_to_bytes (units : list wchar_t) : exception + string :=
  match utf8_of_utf16 units with
  | inr bytes => inr (string_of_bytes bytes)
  | inl e => inl e
  end.

(** ** Notions the properties are stated with *)

(** Both tables of [s'] are those of [s]. *)
Definition same_tables (s s' : State) : Prop :=
  gdi_to_directwrite s' = gdi_to_directwrite s
  ∧ directwrite_to_gdi s' = directwrite_to_gdi s.

(** [m] returns [a] from every state and leaves both tables as they are. *)
Definition returns {A} (m : M A) (a : A) : Prop :=
  ∀ s, ∃ s', m s = Returned a s' ∧ same_tables s s'.

(** The value of a call, [None] when it ends the process. *)
Definition returned_value {A} (o : Outcome A) : option A :=
  match o with
  | Returned a _ => Some a
  | Terminated => None
  end.

(** The state with [lines] more on [std::cerr]. *)
Definition append_cerr (lines : list string) (s : State) : State :=
  {| gdi_to_directwrite := gdi_to_directwrite s;
     directwrite_to_gdi := directwrite_to_gdi s;
     cerr := cerr s ++ lines |}.

(** [m] does the same from every state: it ends the process, or returns
    one value after writing the same lines. *)
Definition logs_only {A} (m : M A) : Prop :=
  (∀ s, m s = Terminated)
  ∨ (∃ a lines, ∀ s, m s = Returned a (append_cerr lines s)).

(** The locale tag [get_family_name_of_cur_locale] looks up. *)
Definition resolved_locale (w : World) : list wchar_t :=
  match GetUserDefaultLocaleName w with
  | Some locale_name => locale_name
  | None => L "en_us"
  end.

(** The world [w] with another answer of [GetUserDefaultLocaleName]. *)
Definition with_locale (w : World) (answer : option (list wchar_t)) : World :=
  {| LOG_LEVEL := LOG_LEVEL w;
     FUNCTION := FUNCTION w;
     FormatMessage := FormatMessage w;
     GetLastError := GetLastError w;
     GetUserDefaultLocaleName := answer;
     new_wchar_t := new_wchar_t w;
     to_bytes := to_bytes w;
     std_string := std_string w;
     DWriteCreateFactory := DWriteCreateFactory w |}.

(** The fatal failures of [init]. *)
Definition fatal (w : World) : Prop :=
  (∃ hr, DWriteCreateFactory w = FAILED hr)
  ∨ (∃ factory hr, DWriteCreateFactory w = SUCCEEDED factory
                   ∧ GetSystemFontCollection factory = FAILED hr).

(** [init] gets as far as the loop, over the families of [font_collection]. *)
Definition enumerates (w : World) (factory : IDWriteFactory)
    (font_collection : IDWriteFontCollection) : Prop :=
  DWriteCreateFactory w = SUCCEEDED factory
  ∧ GetSystemFontCollection factory = SUCCEEDED font_collection.

(** The [family_count] of [init]. *)
Definition family_count (font_collection : IDWriteFontCollection) : Z :=
  int_of_UINT32 (GetFontFamilyCount font_collection).

(** What one iteration of the loop of [init] comes to. *)
Inductive Resolution : Type :=
| Resolved (gdi_family_name directwrite_family_name : string)
| Skipped
| Crashed.

(** The resolution of the family at index [i], read off a run of the
    source's functions. *)
Definition resolution_at (w : World) (factory : IDWriteFactory)
    (font_collection : IDWriteFontCollection) (i : Z) : Resolution :=
  match GetFontFamily font_collection (Z.to_N i) with
  | FAILED _ => Skipped
  | SUCCEEDED font_family =>
      match get_gdi_and_directwrite_family_name w factory font_family
              initial_state with
      | Returned (Some (gdi, dw)) _ => Resolved gdi dw
      | Returned None _ => Skipped
      | Terminated => Crashed
      end
  end.

(** The two tables, and the entry a resolution writes to each. *)
Inductive Table : Type := Gdi_to_directwrite | Directwrite_to_gdi.

Definition table_of (T : Table) (s : State) : gmap string string :=
  match T with
  | Gdi_to_directwrite => gdi_to_directwrite s
  | Directwrite_to_gdi => directwrite_to_gdi s
  end.

Definition entry_of (T : Table) (r : Resolution) : option (string * string) :=
  match r with
  | Resolved gdi dw =>
      Some (match T with
            | Gdi_to_directwrite => (gdi, dw)
            | Directwrite_to_gdi => (dw, gdi)
            end)
  | Skipped | Crashed => None
  end.

(** The table [m] after a resolution's entry, if it has one, is written. *)
Definition record_entry (e : option (string * string))
    (m : gmap string string) : gmap string string :=
  match e with
  | Some (k, v) => <[k := v]> m
  | None => m
  end.

(** What a lookup hands back for the outcome of its [try] block: the
    value's [c_str()], or [nullptr]. *)
Definition value_or_null (r : exception + string) : option string :=
  match r with
  | inr value => Some value
  | inl _ => None
  end.

(** One call of an exported operation that returns, from [s] to [s']. *)
Inductive operation_step : State → State → Prop :=
| step_init w s b s' :
    init w s = Returned b s' → operation_step s s'
| step_cleanup s s' :
    cleanup s = Returned tt s' → operation_step s s'
| step_get_gdi w key s r s' :
    get_gdi_family_from_directwrite w key s = Returned r s' →
    operation_step s s'
| step_get_directwrite w key s r s' :
    get_directwrite_family_from_gdi w key s = Returned r s' →
    operation_step s s'.

(** The states a process can be in: the tables start empty, and the four
    exported operations are the only code that touches them. *)
Inductive reachable : State → Prop :=
| reachable_start : reachable initial_state
| reachable_step s s' : reachable s → operation_step s s' → reachable s'.

(** [s'] is reached from [s] by lookups and [cleanup] alone, with no call
    of [init] in between. *)
Inductive no_init_between : State → State → Prop :=
| no_init_refl s : no_init_between s s
| no_init_cleanup s s1 s' :
    no_init_between s s1 → cleanup s1 = Returned tt s' →
    no_init_between s s'
| no_init_get_gdi w key s s1 r s' :
    no_init_between s s1 →
    get_gdi_family_from_directwrite w key s1 = Returned r s' →
    no_init_between s s'
| no_init_get_directwrite w key s s1 r s' :
    no_init_between s s1 →
    get_directwrite_family_from_gdi w key s1 = Returned r s' →
    no_init_between s s'.

(** Every value of one table is a key of the other. *)
Definition cross_table_invariant (s : State) : Prop :=
  (∀ k v, gdi_to_directwrite s !! k = Some v →
          is_Some (directwrite_to_gdi s !! v))
  ∧ (∀ k v, directwrite_to_gdi s !! k = Some v →
            is_Some (gdi_to_directwrite s !! v)).

(** ** Example worlds *)

(** A family with one localized name, for locale [en-us], whose first
    matching font is [font]. *)
Definition family_named (addr : N) (family_name : list wchar_t)
    (font : IDWriteFont) : IDWriteFontFamily :=
  {| address := addr;
     GetFamilyNames :=
       SUCCEEDED (localized_strings
         {| variants := [(L "en-us", family_name)];
            locale_matches a b := bool_decide (a = b);
            FindLocaleName_error := None;
            GetStringLength_error := None;
            GetString_error := None |});
     GetFirstMatchingFont := SUCCEEDED font |}.

(** A bridge that knows the face names of the listed fonts. *)
Definition interop_of (faces : list (IDWriteFont * list wchar_t))
  : IDWriteGdiInterop :=
  {| ConvertFontToLOGFONT font :=
       match list_find (λ p, p.1 = font) faces with
       | Some (_, (_, face)) =>
           SUCCEEDED ({| lfFaceName := face ++ [0%N] |}, true)
       | None => FAILED E_FAIL
       end |}.

(** The factory of a platform whose font set is [families] and whose
    bridge is [faces]. *)
Definition factory_of (families : list (hresult IDWriteFontFamily))
    (faces : list (IDWriteFont * list wchar_t)) : IDWriteFactory :=
  {| GetSystemFontCollection := SUCCEEDED (font_collection families);
     GetGdiInterop := SUCCEEDED (interop_of faces) |}.

(** A world whose locale is [en-us], whose runtime never fails, and whose
    font set is [families] with the bridge [faces]. *)
Definition world_of (families : list (hresult IDWriteFontFamily))
    (faces : list (IDWriteFont * list wchar_t)) : World :=
  {| LOG_LEVEL := LOG_WARNING;
     FUNCTION f := f;
     FormatMessage hr := Some "error";
     GetLastError := 0%N;
     GetUserDefaultLocaleName := Some (L "en-us");
     new_wchar_t n := None;
     to_bytes := reference_to_bytes;
     std_string key := None;
     DWriteCreateFactory := SUCCEEDED (factory_of families faces) |}.

(** The scenario of the specification: family A resolves to legacy "Arial"
    and modern "Arial", family B, enumerated after it, to legacy "Arial"
    and modern "Arial Black". *)
Definition arial_families : list (hresult IDWriteFontFamily) :=
  [SUCCEEDED (family_named 4096 (L "Arial") 1%N);
   SUCCEEDED (family_named 8192 (L "Arial Black") 2%N)].

Definition arial_faces : list (IDWriteFont * list wchar_t) :=
  [(1%N, L "Arial"); (2%N, L "Arial")].

Definition arial_world : World := world_of arial_families arial_faces.

(** The state after [init] in the Arial scenario. *)
Definition arial_state : State :=
  match init arial_world initial_state with
  | Returned _ s => s
  | Terminated => initial_state
  end.

(** A world like [arial_world] whose runtime cannot build the key of a
    lookup. *)
Definition out_of_memory_world : World :=
  {| LOG_LEVEL := LOG_LEVEL arial_world;
     FUNCTION := FUNCTION arial_world;
     FormatMessage := FormatMessage arial_world;
     GetLastError := GetLastError arial_world;
     GetUserDefaultLocaleName := GetUserDefaultLocaleName arial_world;
     new_wchar_t := new_wchar_t arial_world;
     to_bytes := to_bytes arial_world;
     std_string key := Some (std_exception "bad allocation");
     DWriteCreateFactory := DWriteCreateFactory arial_world |}.

(** The state after a failed lookup in [out_of_memory_world], which has
    logged the exception. *)
Definition arial_state_after_lookup : State :=
  match get_gdi_family_from_directwrite out_of_memory_world "Arial"
          arial_state with
  | Returned _ s => s
  | Terminated => arial_state
  end.

(** A font set whose second family carries a name with a high surrogate
    that no low surrogate follows. *)
Definition unpaired_surrogate_world : World :=
  world_of
    [SUCCEEDED (family_named 4096 (L "Arial") 1%N);
     SUCCEEDED (family_named 8192 [55296%N; 65%N] 2%N);
     SUCCEEDED (family_named 12288 (L "Verdana") 3%N)]
    [(1%N, L "Arial"); (2%N, L "Arial"); (3%N, L "Verdana")].

(** The same three families with well-formed names, the bridge giving
    the second one a face name with such a surrogate. *)
Definition unpaired_surrogate_face_world : World :=
  world_of
    [SUCCEEDED (family_named 4096 (L "Arial") 1%N);
     SUCCEEDED (family_named 8192 (L "Arial Black") 2%N);
     SUCCEEDED (family_named 12288 (L "Verdana") 3%N)]
    [(1%N, L "Arial"); (2%N, [55296%N; 65%N]); (3%N, L "Verdana")].

(** A family whose only localized name is Japanese, in a world whose
    locale is [en-us]. *)
Definition japanese_only_family : IDWriteFontFamily :=
  {| address := 4096;
     GetFamilyNames :=
       SUCCEEDED (localized_strings
         {| variants := [(L "ja-jp", L "Meiryo")];
            locale_matches a b := bool_decide (a = b);
            FindLocaleName_error := None;
            GetStringLength_error := None;
            GetString_error := None |});
     GetFirstMatchingFont := SUCCEEDED 1%N |}.

(** A family whose only localized name carries the tag [en_us]. *)
Definition en_us_family : IDWriteFontFamily :=
  {| address := 4096;
     GetFamilyNames :=
       SUCCEEDED (localized_strings
         {| variants := [(L "en_us", L "Arial")];
            locale_matches a b := bool_decide (a = b);
            FindLocaleName_error := None;
            GetStringLength_error := None;
            GetString_error := None |});
     GetFirstMatchingFont := SUCCEEDED 1%N |}.

(** A world in which [DWriteCreateFactory] fails. *)
Definition no_factory_world : World :=
  {| LOG_LEVEL := LOG_WARNING;
     FUNCTION f := f;
     FormatMessage hr := None;
     GetLastError := 87%N;
     GetUserDefaultLocaleName := Some (L "en-us");
     new_wchar_t n := None;
     to_bytes := reference_to_bytes;
     std_string key := None;
     DWriteCreateFactory := FAILED E_FAIL |}.

(** ** Notions for the functions around the tables *)

(** The line a log function writes for [msg]. *)
Definition log_line (tag : string) (l : Logger) (msg : string) : string :=
  tag +:+ ":" +:+ name l +:+ ":" +:+ msg.



(** [m] writes nothing to [std::cerr]. *)
Definition keeps_cerr {A} (m : M A) : Prop :=
  ∀ s, match m s with
       | Returned _ s' => cerr s' = cerr s
       | Terminated => True
       end.

(** The calls of [get_family_name_of_cur_locale] all succeed, up to the
    conversion, whose outcome is [r]. *)
Definition name_steps (w : World) (font_family : IDWriteFontFamily)
    (r : exception + string) : Prop :=
  ∃ family_names index is_exist len family_name,
    GetFamilyNames font_family = SUCCEEDED family_names
    ∧ FindLocaleName family_names (resolved_locale w)
      = SUCCEEDED (index, is_exist)
    ∧ GetStringLength family_names index = SUCCEEDED len
    ∧ new_wchar_t w (UINT32_succ len) = None
    ∧ GetString family_names index (UINT32_succ len) = SUCCEEDED family_name
    ∧ to_bytes w (c_wstr family_name) = r.

(** The calls of [get_gdi_and_directwrite_family_name] after the name is
    resolved all succeed, up to the conversion of the face name, whose
    outcome is [r]. *)
Definition bridge_steps (w : World) (factory : IDWriteFactory)
    (font_family : IDWriteFontFamily) (r : exception + string) : Prop :=
  ∃ dwrite_font interop lf is_system_font,
    GetFirstMatchingFont font_family = SUCCEEDED dwrite_font
    ∧ GetGdiInterop factory = SUCCEEDED interop
    ∧ ConvertFontToLOGFONT interop dwrite_font
      = SUCCEEDED (lf, is_system_font)
    ∧ to_bytes w (c_wstr (lfFaceName lf)) = r.

(** The world [w] with [font_collection] for the system font collection
    of its factory. *)
Definition with_font_collection (w : World)
    (font_collection : IDWriteFontCollection) : World :=
  {| LOG_LEVEL := LOG_LEVEL w;
     FUNCTION := FUNCTION w;
     FormatMessage := FormatMessage w;
     GetLastError := GetLastError w;
     GetUserDefaultLocaleName := GetUserDefaultLocaleName w;
     new_wchar_t := new_wchar_t w;
     to_bytes := to_bytes w;
     std_string := std_string w;
     DWriteCreateFactory :=
       match DWriteCreateFactory w with
       | SUCCEEDED factory =>
           SUCCEEDED {| GetSystemFontCollection := SUCCEEDED font_collection;
                        GetGdiInterop := GetGdiInterop factory |}
       | FAILED hr => FAILED hr
       end |}.

(** ** More example worlds *)

(** A world without any font family. *)
Definition no_family_world : World := world_of [] [].

(** [arial_world] built with [LOG_LEVEL] set to [LOG_CRITICAL]. *)
Definition critical_arial_world : World :=
  {| LOG_LEVEL := LOG_CRITICAL;
     FUNCTION := FUNCTION arial_world;
     FormatMessage := FormatMessage arial_world;
     GetLastError := GetLastError arial_world;
     GetUserDefaultLocaleName := GetUserDefaultLocaleName arial_world;
     new_wchar_t := new_wchar_t arial_world;
     to_bytes := to_bytes arial_world;
     std_string := std_string arial_world;
     DWriteCreateFactory := DWriteCreateFactory arial_world |}.

(** The families of the Arial scenario, and one more that the count of the
    collection leaves out. *)
Definition arial_collection_with_tail : IDWriteFontCollection :=
  {| GetFontFamilyCount := 2%N;
     GetFontFamily index :=
       default (FAILED E_FAIL)
         (lookupN (arial_families
                   ++ [SUCCEEDED (family_named 12288 (L "Verdana") 1%N)])
                  index) |}.

(** A family with three localized names, two of them for [en-us], the first
    of these with a terminator inside the string. *)
Definition two_english_names_family : IDWriteFontFamily :=
  {| address := 4096;
     GetFamilyNames :=
       SUCCEEDED (localized_strings
         {| variants := [(L "ja-jp", L "Meiryo");
                         (L "en-us", L "Arial" ++ [0%N] ++ L "Bold");
                         (L "en-us", L "Helvetica")];
            locale_matches a b := bool_decide (a = b);
            FindLocaleName_error := None;
            GetStringLength_error := None;
            GetString_error := None |});
     GetFirstMatchingFont := SUCCEEDED 1%N |}.


(** What [m] comes to, from every state, satisfies [P]: [Some a] for a
    returned value, [None] for the end of the process. *)
Definition outcome_is {A} (m : M A) (P : option A → Prop) : Prop :=
  ∀ s, P (returned_value (m s)).

(** The outcome of the resolver, read off its calls. *)
Definition name_outcome (w : World) (font_family : IDWriteFontFamily)
    (o : option (option string)) : Prop :=
  match o with
  | Some (Some result) => name_steps w font_family (inr result)
  | Some None => ∀ r, ¬ name_steps w font_family r
  | None => ∃ e, name_steps w font_family (inl e)
  end.

(** The outcome of [get_gdi_and_directwrite_family_name], read off its
    calls. *)
Definition names_outcome (w : World) (factory : IDWriteFactory)
    (font_family : IDWriteFontFamily)
    (o : option (option (string * string))) : Prop :=
  match o with
  | Some (Some (gdi, dw)) =>
      name_steps w font_family (inr dw)
      ∧ bridge_steps w factory font_family (inr gdi)
  | Some None =>
      (∀ r, ¬ name_steps w font_family r)
      ∨ (∃ dw, name_steps w font_family (inr dw)
               ∧ ∀ gdi, ¬ bridge_steps w factory font_family (inr gdi))
  | None => ∃ e, name_steps w font_family (inl e)
  end.

(** The line [init] writes at the debug level for a resolved pair. *)
Definition debug_line (w : World) (gdi dw : string) : string :=
  log_line "DEBUG" (logger w)
    (gdi +:+ "(gdi) : " +:+ dw +:+ "(directwrite)").

(** [arial_world] built with [LOG_LEVEL] set to [LOG_DEBUG]. *)
Definition debug_arial_world : World :=
  {| LOG_LEVEL := LOG_DEBUG;
     FUNCTION := FUNCTION arial_world;
     FormatMessage := FormatMessage arial_world;
     GetLastError := GetLastError arial_world;
     GetUserDefaultLocaleName := GetUserDefaultLocaleName arial_world;
     new_wchar_t := new_wchar_t arial_world;
     to_bytes := to_bytes arial_world;
     std_string := std_string arial_world;
     DWriteCreateFactory := DWriteCreateFactory arial_world |}.

(** * Properties *)

(** ** The monad of the embedding *)

Lemma same_tables_refl s : same_tables s s.
Proof. by split. Qed.

Lemma same_tables_trans s1 s2 s3 :
  same_tables s1 s2 → same_tables s2 s3 → same_tables s1 s3.
Proof. intros [? ?] [? ?]; split; congruence. Qed.

Lemma same_tables_append_cerr lines s : same_tables s (append_cerr lines s).
Proof. by split. Qed.

Lemma append_cerr_app l1 l2 s :
  append_cerr l2 (append_cerr l1 s) = append_cerr (l1 ++ l2) s.
Proof. unfold append_cerr; simpl. by rewrite app_assoc. Qed.

Lemma append_cerr_nil s : append_cerr [] s = s.
Proof. destruct s; unfold append_cerr; simpl. by rewrite app_nil_r. Qed.

Lemma logs_only_ret {A} (a : A) : logs_only (mret a).
Proof.
  right. exists a, []. intros s. by rewrite append_cerr_nil.
Qed.

Lemma logs_only_terminate {A} : logs_only (@terminate A).
Proof. by left. Qed.

Lemma logs_only_bind {A B} (m : M A) (f : A → M B) :
  logs_only m → (∀ a, logs_only (f a)) → logs_only (m ≫= f).
Proof.
  intros [Hm | (a & l1 & Hm)] Hf.
  - left. intros s. unfold mbind, M_bind. by rewrite Hm.
  - destruct (Hf a) as [Ha | (b & l2 & Ha)].
    + left. intros s. unfold mbind, M_bind. by rewrite Hm, Ha.
    + right. exists b, (l1 ++ l2). intros s. unfold mbind, M_bind.
      by rewrite Hm, Ha, append_cerr_app.
Qed.

Lemma logs_only_write_cerr line : logs_only (write_cerr line).
Proof. right. by exists tt, [line]. Qed.

Lemma logs_only_returns {A} (m : M A) (a : A) :
  logs_only m → returned_value (m initial_state) = Some a → returns m a.
Proof.
  intros [Hm | (b & lines & Hm)] Hv.
  - by rewrite Hm in Hv.
  - rewrite Hm in Hv. simplify_eq/=. intros s. exists (append_cerr lines s).
    split; [apply Hm | apply same_tables_append_cerr].
Qed.

Lemma logs_only_terminates {A} (m : M A) :
  logs_only m → returned_value (m initial_state) = None →
  ∀ s, m s = Terminated.
Proof.
  intros [Hm | (b & lines & Hm)] Hv; [done |]. by rewrite Hm in Hv.
Qed.

Lemma returns_ret {A} (a : A) : returns (mret a) a.
Proof. intros s. exists s. split; [done | apply same_tables_refl]. Qed.

Lemma returns_bind {A B} (m : M A) (f : A → M B) a b :
  returns m a → returns (f a) b → returns (m ≫= f) b.
Proof.
  intros Hm Hf s. destruct (Hm s) as (s1 & E1 & T1).
  destruct (Hf s1) as (s2 & E2 & T2). exists s2. split.
  - unfold mbind, M_bind. by rewrite E1.
  - by eapply same_tables_trans.
Qed.

(** ** The logger only writes to [std::cerr] *)

Lemma logs_only_log_debug l msg : logs_only (log_debug l msg).
Proof.
  unfold log_debug.
  case_match; [apply logs_only_write_cerr | apply logs_only_ret].
Qed.

Lemma logs_only_log_warning l msg : logs_only (log_warning l msg).
Proof.
  unfold log_warning.
  case_match; [apply logs_only_write_cerr | apply logs_only_ret].
Qed.

Lemma logs_only_log_error l msg : logs_only (log_error l msg).
Proof.
  unfold log_error.
  case_match; [apply logs_only_write_cerr | apply logs_only_ret].
Qed.

Lemma logs_only_get_win_error_msg w hr : logs_only (get_win_error_msg w hr).
Proof.
  unfold get_win_error_msg. case_match; [apply logs_only_ret |].
  apply logs_only_bind;
    [apply logs_only_log_error | intros; apply logs_only_ret].
Qed.

Create HintDb logs discriminated.
#[local] Hint Resolve logs_only_ret logs_only_terminate logs_only_log_debug
  logs_only_log_warning logs_only_log_error logs_only_get_win_error_msg : logs.

(** Walks down a function that only calls the logger: binds, then the
    scrutinee of each [match]. *)
Ltac logs_only_tree :=
  repeat first
    [ solve [auto with logs]
    | apply logs_only_bind; [| intros ?]
    | match goal with
      | |- logs_only (match ?x with _ => _ end) => destruct x
      end ].

Lemma logs_only_get_family_name_of_cur_locale w font_family :
  logs_only (get_family_name_of_cur_locale w font_family).
Proof. unfold get_family_name_of_cur_locale. logs_only_tree. Qed.

Lemma logs_only_get_gdi_and_directwrite_family_name w factory font_family :
  logs_only (get_gdi_and_directwrite_family_name w factory font_family).
Proof.
  unfold get_gdi_and_directwrite_family_name.
  apply logs_only_bind; [apply logs_only_get_family_name_of_cur_locale |].
  intros r. logs_only_tree.
Qed.

Lemma returns_log_warning l msg : returns (log_warning l msg) tt.
Proof.
  intros s. unfold log_warning. case_match; eexists; (split; [done |]);
    by split.
Qed.

Lemma returns_log_error l msg : returns (log_error l msg) tt.
Proof.
  intros s. unfold log_error. case_match; eexists; (split; [done |]);
    by split.
Qed.

Lemma returns_get_win_error_msg w hr :
  returns (get_win_error_msg w hr) (default "" (FormatMessage w hr)).
Proof.
  unfold get_win_error_msg. destruct (FormatMessage w hr); simpl.
  - apply returns_ret.
  - eapply returns_bind; [apply returns_log_error | apply returns_ret].
Qed.

(** An error path of the source: fetch the message, log it, return [a]. *)
Lemma returns_error_path {A} w hr (text : string → string) (a : A) :
  returns (msg ← get_win_error_msg w hr;
           log_error (logger w) (text msg) ;; mret a) a.
Proof.
  eapply returns_bind; [apply returns_get_win_error_msg |].
  eapply returns_bind; [apply returns_log_error | apply returns_ret].
Qed.

(** ** Tables of localized names *)

Lemma lookupN_None {A} (l : list A) (i : N) :
  (N.of_nat (length l) ≤ i)%N → lookupN l i = None.
Proof.
  revert i. induction l as [| x l IH]; intros i Hi; simpl in *; [done |].
  destruct (N.eqb_spec i 0) as [-> | Hne]; [lia |].
  apply IH. lia.
Qed.

Lemma find_locale_None matches locale_name variants i :
  Forall (λ v, matches locale_name v.1 = false) variants →
  find_locale matches locale_name variants i = None.
Proof.
  intros H. revert i. induction H as [| [loc str] l Hx _ IH]; intros i;
    simpl in *; [done |].
  by rewrite Hx.
Qed.

(** ** C1 *)

(** C1. When the table of localized names of a family has no variant that
    matches the locale tag the resolver looks up, the current user locale
    or the fallback tag, [get_family_name_of_cur_locale] returns
    [std::nullopt] for that family, whatever other variants the table
    holds, and touches neither table.  The table is any table of at most
    [UINT_MAX] variants, the count being a [UINT32]. *)
Theorem no_matching_variant_no_result (w : World)
    (font_family : IDWriteFontFamily) (t : LocalizedTable) (s : State) :
  GetFamilyNames font_family = SUCCEEDED (localized_strings t) →
  (N.of_nat (length (variants t)) ≤ UINT_MAX)%N →
  Forall (λ v, locale_matches t (resolved_locale w) v.1 = false)
         (variants t) →
  ∃ s', get_family_name_of_cur_locale w font_family s = Returned None s'
        ∧ same_tables s s'.
Proof.
  intros Hnames Hcount Hnone. revert s.
  change (returns (get_family_name_of_cur_locale w font_family) None).
  unfold get_family_name_of_cur_locale.
  eapply (returns_bind _ _ (resolved_locale w)).
  { unfold resolved_locale. destruct (GetUserDefaultLocaleName w).
    - apply returns_ret.
    - eapply returns_bind; [apply returns_log_warning | apply returns_ret]. }
  rewrite Hnames. simpl.
  destruct (FindLocaleName_error t).
  { apply (returns_error_path w _ (λ msg, _ +:+ msg)). }
  rewrite (find_locale_None _ _ _ _ Hnone).
  destruct (GetStringLength_error t).
  { apply (returns_error_path w _ (λ msg, _ +:+ msg)). }
  rewrite (lookupN_None _ _ Hcount).
  apply (returns_error_path w _ (λ msg, _ +:+ msg)).
Qed.

Lemma no_matching_variant_no_result_witness :
  ∃ s', get_family_name_of_cur_locale arial_world japanese_only_family
          initial_state = Returned None s'
        ∧ same_tables initial_state s'.
Proof.
  eapply (no_matching_variant_no_result arial_world japanese_only_family).
  - reflexivity.
  - vm_compute. discriminate.
  - repeat constructor.
Defined.

(** ** C7 *)

(** C7. When [GetUserDefaultLocaleName] fails, the resolver logs a warning
    and goes on exactly as it does in a world where the call answers the
    fallback tag [en_us]: the failure is no exit of its own.  When it is
    the only call that fails, that is, when the calls that follow it with
    the fallback tag (the family's names, the variant's index, length,
    buffer and string, the conversion) all succeed, the family's name is
    returned. *)
Theorem locale_failure_falls_back (w : World)
    (font_family : IDWriteFontFamily) (s : State) :
  GetUserDefaultLocaleName w = None →
  get_family_name_of_cur_locale w font_family s
  = (log_warning (logger w)
       "Failed to get the default locale. Defaulting to en_us" ;;
     get_family_name_of_cur_locale (with_locale w (Some (L "en_us")))
       font_family) s
  ∧ ∀ family_names index is_exist len family_name result,
      GetFamilyNames font_family = SUCCEEDED family_names →
      FindLocaleName family_names (L "en_us") = SUCCEEDED (index, is_exist) →
      GetStringLength family_names index = SUCCEEDED len →
      new_wchar_t w (UINT32_succ len) = None →
      GetString family_names index (UINT32_succ len)
      = SUCCEEDED family_name →
      to_bytes w (c_wstr family_name) = inr result →
      ∃ s', get_family_name_of_cur_locale w font_family s
            = Returned (Some result) s'
            ∧ same_tables s s'.
Proof.
  intros Hlocale. split.
  - unfold get_family_name_of_cur_locale, mbind, M_bind, mret, M_ret. simpl.
    rewrite Hlocale.
    by destruct (log_warning _ _ s).
  - intros family_names index is_exist len family_name result
      Hnames Hfind Hlen Hnew Hget Hconv.
    revert s.
    change (returns (get_family_name_of_cur_locale w font_family)
              (Some result)).
    unfold get_family_name_of_cur_locale.
    eapply (returns_bind _ _ (L "en_us")).
    { rewrite Hlocale.
      eapply returns_bind; [apply returns_log_warning | apply returns_ret]. }
    rewrite Hnames, Hfind, Hlen, Hnew, Hget, Hconv. apply returns_ret.
Qed.

Lemma locale_failure_falls_back_witness :
  ∃ s', get_family_name_of_cur_locale (with_locale arial_world None)
          en_us_family initial_state = Returned (Some "Arial") s'
        ∧ same_tables initial_state s'.
Proof.
  refine (proj2 (locale_failure_falls_back (with_locale arial_world None)
                   en_us_family initial_state eq_refl)
            _ 0%N true 5%N (L "Arial" ++ [0%N]) "Arial"
            eq_refl _ _ eq_refl _ _).
  - vm_compute. reflexivity.
  - vm_compute. reflexivity.
  - vm_compute. reflexivity.
  - vm_compute. reflexivity.
Defined.

(** ** The two exits of [init] *)

Lemma init_fatal w : fatal w → returns (init w) false.
Proof.
  intros Hfatal. unfold init.
  destruct Hfatal as [[hr ->] | (factory & hr & -> & ->)];
    apply (returns_error_path w _ (λ msg, _ +:+ msg)).
Qed.

Lemma init_loop w factory font_collection s :
  enumerates w factory font_collection →
  init w s
  = (for_each (seqZ 0 (family_count font_collection))
       (init_family w factory font_collection) ;; mret true) s.
Proof. intros [H1 H2]. unfold init. by rewrite H1, H2. Qed.

Lemma fatal_or_enumerates w :
  fatal w ∨ ∃ factory font_collection, enumerates w factory font_collection.
Proof.
  unfold fatal, enumerates.
  destruct (DWriteCreateFactory w) as [factory | hr] eqn:E1; [| eauto].
  destruct (GetSystemFontCollection factory) as [fc | hr] eqn:E2.
  - right. by exists factory, fc.
  - left. right. by exists factory, hr.
Qed.

(** ** C3 *)

(** C3. When [DWriteCreateFactory] fails, or it succeeds and
    [GetSystemFontCollection] fails, [init] returns [false] and both
    tables are what they were before the call: nothing is inserted and
    nothing removed, so on a first call they are still empty. *)
Theorem fatal_failure_keeps_tables (w : World) (s : State) :
  (∃ hr, DWriteCreateFactory w = FAILED hr)
  ∨ (∃ factory hr, DWriteCreateFactory w = SUCCEEDED factory
                   ∧ GetSystemFontCollection factory = FAILED hr) →
  ∃ s', init w s = Returned false s'
        ∧ same_tables s s'
        ∧ (gdi_to_directwrite s = ∅ ∧ directwrite_to_gdi s = ∅ →
           gdi_to_directwrite s' = ∅ ∧ directwrite_to_gdi s' = ∅).
Proof.
  intros Hfatal.
  destruct (init_fatal w Hfatal s) as (s' & Hinit & [Hgdi Hdw]).
  exists s'. split; [done |]. split; [done |].
  by rewrite Hgdi, Hdw.
Qed.

Lemma fatal_failure_keeps_tables_witness :
  ∃ s', init no_factory_world initial_state = Returned false s'
        ∧ same_tables initial_state s'
        ∧ (gdi_to_directwrite initial_state = ∅
           ∧ directwrite_to_gdi initial_state = ∅ →
           gdi_to_directwrite s' = ∅ ∧ directwrite_to_gdi s' = ∅).
Proof.
  apply (fatal_failure_keeps_tables no_factory_world initial_state).
  left. exists E_FAIL. reflexivity.
Defined.

(** ** One iteration of the loop of [init] *)

Lemma init_family_spec w factory fc i s :
  (resolution_at w factory fc i = Crashed
   ∧ init_family w factory fc i s = Terminated)
  ∨ (resolution_at w factory fc i ≠ Crashed
     ∧ ∃ s', init_family w factory fc i s = Returned tt s'
             ∧ ∀ T, table_of T s'
                    = record_entry (entry_of T (resolution_at w factory fc i))
                        (table_of T s)).
Proof.
  unfold resolution_at, init_family.
  destruct (GetFontFamily fc (Z.to_N i)) as [font_family | hr].
  - destruct (logs_only_get_gdi_and_directwrite_family_name w factory
                font_family) as [Hend | (r & lines & Hret)].
    + left. rewrite Hend. split; [done |].
      unfold mbind, M_bind. by rewrite Hend.
    + right. rewrite Hret. unfold mbind at 1. unfold M_bind at 1.
      rewrite Hret. destruct r as [[gdi dw] |].
      * split; [done |].
        destruct (logs_only_log_debug (logger w)
                    (gdi +:+ "(gdi) : " +:+ dw +:+ "(directwrite)"))
          as [Hend | ([] & lines' & Hlog)].
        { exfalso. specialize (Hend initial_state). revert Hend.
          unfold log_debug. by case_match. }
        eexists. split.
        { unfold mbind, M_bind, gdi_to_directwrite_assign,
            directwrite_to_gdi_assign. by rewrite Hlog. }
        by intros [].
      * split; [done |].
        destruct (returns_log_warning (logger w)
          ("Getting gdi and directwrite family name failed for IDWriteFontFamily : "
           +:+ to_string (address font_family)) (append_cerr lines s))
          as (s' & Hlog & [Hgdi Hdw]).
        exists s'. split; [done |]. by intros [].
  - right. split; [done |].
    assert (returns (msg ← get_win_error_msg w hr;
                     log_error (logger w) ("GetFontFamily() failed : " +:+ msg))
                    tt) as Hret.
    { eapply returns_bind;
        [apply returns_get_win_error_msg | apply returns_log_error]. }
    destruct (Hret s) as (s' & Hrun & [Hgdi Hdw]).
    exists s'. split; [done |]. by intros [].
Qed.

(** [resolution_at] runs the resolver from the initial state; the
    resolver does the same from every state. *)
Lemma resolution_at_any_state w factory fc i font_family :
  GetFontFamily fc (Z.to_N i) = SUCCEEDED font_family →
  match resolution_at w factory fc i with
  | Resolved gdi dw =>
      returns (get_gdi_and_directwrite_family_name w factory font_family)
              (Some (gdi, dw))
  | Skipped =>
      returns (get_gdi_and_directwrite_family_name w factory font_family) None
  | Crashed =>
      ∀ s, get_gdi_and_directwrite_family_name w factory font_family s
           = Terminated
  end.
Proof.
  intros Hfamily. unfold resolution_at. rewrite Hfamily.
  pose proof (logs_only_get_gdi_and_directwrite_family_name w factory
                font_family) as Hlogs.
  destruct (get_gdi_and_directwrite_family_name w factory font_family
              initial_state) as [[[gdi dw] |] s1 |] eqn:Hrun.
  - apply logs_only_returns; [done |]. by rewrite Hrun.
  - apply logs_only_returns; [done |]. by rewrite Hrun.
  - apply logs_only_terminates; [done |]. by rewrite Hrun.
Qed.

(** ** The loop of [init] *)

Section loop.

Context (w : World) (factory : IDWriteFactory) (fc : IDWriteFontCollection).

Local Abbreviation body := (init_family w factory fc).
Local Abbreviation resolution := (resolution_at w factory fc).

Lemma for_each_nil s : for_each [] body s = Returned tt s.
Proof. reflexivity. Qed.

Lemma for_each_cons i l s :
  for_each (i :: l) body s
  = match body i s with
    | Returned _ s1 => for_each l body s1
    | Terminated => Terminated
    end.
Proof. reflexivity. Qed.

Lemma for_each_app l1 l2 s :
  for_each (l1 ++ l2) body s
  = match for_each l1 body s with
    | Returned _ s1 => for_each l2 body s1
    | Terminated => Terminated
    end.
Proof.
  revert s. induction l1 as [| i l1 IH]; intros s; [done |].
  rewrite <- app_comm_cons, !for_each_cons.
  destruct (body i s); [apply IH | done].
Qed.

Lemma loop_returns l s :
  (∀ i, i ∈ l → resolution i ≠ Crashed) →
  ∃ s', for_each l body s = Returned tt s'.
Proof.
  revert s. induction l as [| i l IH]; intros s Hl; [by eexists |].
  rewrite for_each_cons.
  destruct (init_family_spec w factory fc i s)
    as [[Hc _] | (_ & s1 & -> & _)].
  - destruct (Hl i); [left | done].
  - apply IH. intros j Hj. apply Hl. by right.
Qed.

Lemma loop_terminates l s i :
  i ∈ l → resolution i = Crashed → for_each l body s = Terminated.
Proof.
  revert s. induction l as [| j l IH]; intros s Hi Hc; [by inversion Hi |].
  rewrite for_each_cons.
  destruct (init_family_spec w factory fc j s)
    as [[_ ->] | (Hj & s1 & -> & _)]; [done |].
  apply IH; [| done]. inversion Hi; subst; [done | done].
Qed.

(** What the loop leaves in a table, given by induction on the indices:
    [P] holds of the table before, and every iteration keeps it. *)
Lemma loop_table_ind (T : Table) (P : gmap string string → Prop) l s s' :
  (∀ i m, i ∈ l → P m → P (record_entry (entry_of T (resolution i)) m)) →
  P (table_of T s) →
  for_each l body s = Returned tt s' →
  P (table_of T s').
Proof.
  revert s. induction l as [| i l IH]; intros s Hstep HP Hrun.
  - rewrite for_each_nil in Hrun. by simplify_eq.
  - rewrite for_each_cons in Hrun.
    destruct (init_family_spec w factory fc i s)
      as [[_ Hend] | (_ & s1 & Hi & Htab)].
    { by rewrite Hend in Hrun. }
    rewrite Hi in Hrun. apply (IH s1); [| | done].
    + intros j m Hj. apply Hstep. by right.
    + rewrite Htab. apply Hstep; [left | done].
Qed.

Lemma loop_keeps_keys T l s s' k :
  for_each l body s = Returned tt s' →
  is_Some (table_of T s !! k) → is_Some (table_of T s' !! k).
Proof.
  intros Hrun Hk.
  apply (loop_table_ind T (λ m, is_Some (m !! k)) l s s'); [| done | done].
  intros i m _ Hm. destruct (entry_of T (resolution i)) as [[k' v'] |];
    simpl; [| done].
  rewrite lookup_insert. case_decide; [by eexists | done].
Qed.

Lemma loop_keeps_value T l s s' k v :
  for_each l body s = Returned tt s' →
  (∀ i v', i ∈ l → entry_of T (resolution i) = Some (k, v') → v' = v) →
  table_of T s !! k = Some v → table_of T s' !! k = Some v.
Proof.
  intros Hrun Hlater Hk.
  apply (loop_table_ind T (λ m, m !! k = Some v) l s s'); [| done | done].
  intros i m Hi Hm.
  destruct (entry_of T (resolution i)) as [[k' v'] |] eqn:He; simpl; [| done].
  rewrite lookup_insert. case_decide as Hkk; [| done].
  subst k'. f_equal. by apply (Hlater i).
Qed.

Lemma loop_last_write T l1 j l2 s s' k v :
  for_each (l1 ++ j :: l2) body s = Returned tt s' →
  entry_of T (resolution j) = Some (k, v) →
  (∀ i v', i ∈ l2 → entry_of T (resolution i) = Some (k, v') → v' = v) →
  table_of T s' !! k = Some v.
Proof.
  intros Hrun Hj Hlater. rewrite for_each_app in Hrun.
  destruct (for_each l1 body s) as [[] s1 |]; [| done].
  rewrite for_each_cons in Hrun.
  destruct (init_family_spec w factory fc j s1)
    as [[_ Hend] | (_ & s2 & Hstep & Htab)].
  { by rewrite Hend in Hrun. }
  rewrite Hstep in Hrun.
  apply (loop_keeps_value T l2 s2 s'); [done | done |].
  rewrite Htab, Hj. simpl. apply lookup_insert_eq.
Qed.

Lemma loop_keeps_invariant l s s' :
  cross_table_invariant s →
  for_each l body s = Returned tt s' →
  cross_table_invariant s'.
Proof.
  revert s. induction l as [| i l IH]; intros s Hinv Hrun.
  - rewrite for_each_nil in Hrun. by simplify_eq.
  - rewrite for_each_cons in Hrun.
    destruct (init_family_spec w factory fc i s)
      as [[_ Hend] | (_ & s1 & Hi & Htab)].
    { by rewrite Hend in Hrun. }
    rewrite Hi in Hrun. apply (IH s1); [| done].
    pose proof (Htab Gdi_to_directwrite) as Hgdi.
    pose proof (Htab Directwrite_to_gdi) as Hdw. simpl in Hgdi, Hdw.
    destruct Hinv as [Hinv1 Hinv2].
    destruct (resolution_at w factory fc i) as [gdi dw | |]; simpl in *;
      [| by split; rewrite Hgdi, Hdw | by split; rewrite Hgdi, Hdw].
    split; intros k v; rewrite Hgdi, Hdw, !lookup_insert; intros Hkv;
      repeat case_decide; simplify_eq; eauto.
Qed.

End loop.

Lemma seqZ_split (n i : Z) :
  0 ≤ i < n → seqZ 0 n = seqZ 0 i ++ i :: seqZ (i + 1) (n - i - 1).
Proof.
  intros Hi. replace n with (i + (n - i)) at 1 by lia.
  rewrite seqZ_app by lia. f_equal. rewrite seqZ_cons by lia.
  f_equal; lia.
Qed.

(** ** [init] as a whole *)

Lemma init_returned w factory fc s b s' :
  enumerates w factory fc →
  init w s = Returned b s' →
  b = true
  ∧ for_each (seqZ 0 (family_count fc)) (init_family w factory fc) s
    = Returned tt s'.
Proof.
  intros Henum. rewrite (init_loop w factory fc s Henum).
  unfold mbind, M_bind, mret, M_ret.
  destruct (for_each _ _ s) as [[] s1 |]; [| done].
  intros ?. by simplify_eq.
Qed.

Lemma init_returns_true w factory fc s :
  enumerates w factory fc →
  (∀ i, 0 ≤ i < family_count fc → resolution_at w factory fc i ≠ Crashed) →
  ∃ s', init w s = Returned true s'.
Proof.
  intros Henum Hgood. rewrite (init_loop w factory fc s Henum).
  destruct (loop_returns w factory fc (seqZ 0 (family_count fc)) s)
    as [s' Hrun].
  { intros i Hi. apply Hgood. apply elem_of_seqZ in Hi. lia. }
  exists s'. unfold mbind, M_bind. by rewrite Hrun.
Qed.

Lemma init_terminates w factory fc s i :
  enumerates w factory fc →
  0 ≤ i < family_count fc →
  resolution_at w factory fc i = Crashed →
  init w s = Terminated.
Proof.
  intros Henum Hi Hc. rewrite (init_loop w factory fc s Henum).
  unfold mbind, M_bind.
  rewrite (loop_terminates w factory fc _ s i); [done | | done].
  apply elem_of_seqZ. lia.
Qed.

(** Families that are skipped add nothing: when every family of the
    enumeration is skipped, [init] returns [true] with both tables as they
    were. *)
Lemma init_all_skipped w factory fc s :
  enumerates w factory fc →
  (∀ i, 0 ≤ i < family_count fc → resolution_at w factory fc i = Skipped) →
  ∃ s', init w s = Returned true s' ∧ same_tables s s'.
Proof.
  intros Henum Hskipped.
  destruct (init_returns_true w factory fc s Henum) as [s' Hinit].
  { intros i Hi. by rewrite (Hskipped i Hi). }
  exists s'. split; [done |].
  destruct (init_returned w factory fc s true s' Henum Hinit) as [_ Hrun].
  assert (∀ T, table_of T s' = table_of T s) as Htab.
  { intros T.
    apply (loop_table_ind w factory fc T (λ m, m = table_of T s)
             (seqZ 0 (family_count fc)) s s'); [| done | done].
    intros i m Hi ->. apply elem_of_seqZ in Hi.
    rewrite (Hskipped i); [done | lia]. }
  split; [apply (Htab Gdi_to_directwrite) | apply (Htab Directwrite_to_gdi)].
Qed.

Lemma init_keeps_invariant w s b s' :
  cross_table_invariant s → init w s = Returned b s' →
  cross_table_invariant s'.
Proof.
  intros Hinv Hinit.
  destruct (fatal_or_enumerates w) as [Hfatal | (factory & fc & Henum)].
  - destruct (init_fatal w Hfatal s) as (s1 & Hs1 & [Hgdi Hdw]).
    rewrite Hs1 in Hinit. simplify_eq.
    destruct Hinv as [H1 H2]. split; intros k v; rewrite Hgdi, Hdw; eauto.
  - destruct (init_returned w factory fc s b s' Henum Hinit) as [_ Hrun].
    by eapply loop_keeps_invariant.
Qed.

Lemma init_keeps_keys w s b s' T k :
  init w s = Returned b s' →
  is_Some (table_of T s !! k) → is_Some (table_of T s' !! k).
Proof.
  intros Hinit Hk.
  destruct (fatal_or_enumerates w) as [Hfatal | (factory & fc & Henum)].
  - destruct (init_fatal w Hfatal s) as (s1 & Hs1 & [Hgdi Hdw]).
    rewrite Hs1 in Hinit. simplify_eq.
    destruct T; simpl in *; by rewrite ?Hgdi, ?Hdw.
  - destruct (init_returned w factory fc s b s' Henum Hinit) as [_ Hrun].
    by eapply loop_keeps_keys.
Qed.

(** ** The lookups *)

Lemma get_gdi_family_from_directwrite_spec w key s :
  ∃ s', get_gdi_family_from_directwrite w key s
        = Returned (value_or_null (try_at w (directwrite_to_gdi s) key)) s'
        ∧ same_tables s s'.
Proof.
  unfold get_gdi_family_from_directwrite, mbind, M_bind, get_state.
  destruct (try_at w (directwrite_to_gdi s) key) as [[msg | msg] | value];
    simpl.
  - apply returns_ret.
  - apply (returns_bind _ _ tt); [apply returns_log_error | apply returns_ret].
  - apply returns_ret.
Qed.

Lemma get_directwrite_family_from_gdi_spec w key s :
  ∃ s', get_directwrite_family_from_gdi w key s
        = Returned (value_or_null (try_at w (gdi_to_directwrite s) key)) s'
        ∧ same_tables s s'.
Proof.
  unfold get_directwrite_family_from_gdi, mbind, M_bind, get_state.
  destruct (try_at w (gdi_to_directwrite s) key) as [[msg | msg] | value];
    simpl.
  - apply returns_ret.
  - apply (returns_bind _ _ tt); [apply returns_log_error | apply returns_ret].
  - apply returns_ret.
Qed.

Lemma try_at_miss w table key :
  table !! key = None → value_or_null (try_at w table key) = None.
Proof.
  intros Hmiss. unfold try_at, unordered_map_at. rewrite Hmiss.
  by destruct (std_string w key).
Qed.

Lemma try_at_throw w table key e :
  std_string w key = Some e → value_or_null (try_at w table key) = None.
Proof. intros Hthrow. unfold try_at. by rewrite Hthrow. Qed.

Lemma try_at_hit w table key value :
  std_string w key = None → table !! key = Some value →
  value_or_null (try_at w table key) = Some value.
Proof.
  intros Hkey Hhit. unfold try_at, unordered_map_at. by rewrite Hkey, Hhit.
Qed.

(** The value of a lookup is a function of the world, the key and the
    table it reads. *)
Lemma lookup_values_same_tables w key s s' :
  same_tables s s' →
  returned_value (get_gdi_family_from_directwrite w key s')
  = returned_value (get_gdi_family_from_directwrite w key s)
  ∧ returned_value (get_directwrite_family_from_gdi w key s')
    = returned_value (get_directwrite_family_from_gdi w key s).
Proof.
  intros [Hgdi Hdw].
  destruct (get_gdi_family_from_directwrite_spec w key s) as (? & -> & _).
  destruct (get_gdi_family_from_directwrite_spec w key s') as (? & -> & _).
  destruct (get_directwrite_family_from_gdi_spec w key s) as (? & -> & _).
  destruct (get_directwrite_family_from_gdi_spec w key s') as (? & -> & _).
  simpl. by rewrite Hgdi, Hdw.
Qed.

Lemma no_init_between_same_tables s s' :
  no_init_between s s' → same_tables s s'.
Proof.
  induction 1 as [s | s s1 s' _ IH Hstep | w key s s1 r s' _ IH Hstep
                  | w key s s1 r s' _ IH Hstep].
  - apply same_tables_refl.
  - unfold cleanup, mret, M_ret in Hstep. by simplify_eq.
  - destruct (get_gdi_family_from_directwrite_spec w key s1)
      as (s2 & Hrun & Hsame).
    rewrite Hrun in Hstep. simplify_eq. by eapply same_tables_trans.
  - destruct (get_directwrite_family_from_gdi_spec w key s1)
      as (s2 & Hrun & Hsame).
    rewrite Hrun in Hstep. simplify_eq. by eapply same_tables_trans.
Qed.

(** ** C5 *)

(** C5. A lookup of a key that its table does not hold returns the null
    pointer, in both directions; so does a lookup during which the runtime
    throws any exception while the table is read.  Either lookup returns
    to its caller from every state and for every key: no exception leaves
    it. *)
Theorem lookup_miss_is_null (w : World) (s : State) (key : string) :
  (directwrite_to_gdi s !! key = None →
   ∃ s', get_gdi_family_from_directwrite w key s = Returned None s'
         ∧ same_tables s s')
  ∧ (gdi_to_directwrite s !! key = None →
     ∃ s', get_directwrite_family_from_gdi w key s = Returned None s'
           ∧ same_tables s s')
  ∧ (∀ e, std_string w key = Some e →
       (∃ s', get_gdi_family_from_directwrite w key s = Returned None s'
              ∧ same_tables s s')
       ∧ (∃ s', get_directwrite_family_from_gdi w key s = Returned None s'
                ∧ same_tables s s'))
  ∧ (∃ r s', get_gdi_family_from_directwrite w key s = Returned r s')
  ∧ (∃ r s', get_directwrite_family_from_gdi w key s = Returned r s').
Proof.
  destruct (get_gdi_family_from_directwrite_spec w key s)
    as (s1 & Hrun1 & Hsame1).
  destruct (get_directwrite_family_from_gdi_spec w key s)
    as (s2 & Hrun2 & Hsame2).
  repeat apply conj.
  - intros Hmiss. exists s1. by rewrite Hrun1, (try_at_miss _ _ _ Hmiss).
  - intros Hmiss. exists s2. by rewrite Hrun2, (try_at_miss _ _ _ Hmiss).
  - intros e He. split.
    + exists s1. by rewrite Hrun1, (try_at_throw _ _ _ _ He).
    + exists s2. by rewrite Hrun2, (try_at_throw _ _ _ _ He).
  - eauto.
  - eauto.
Qed.

Lemma lookup_miss_is_null_witness :
  (∃ s', get_gdi_family_from_directwrite arial_world "Verdana" arial_state
         = Returned None s'
         ∧ same_tables arial_state s')
  ∧ (∃ s', get_directwrite_family_from_gdi out_of_memory_world "Arial"
             arial_state = Returned None s'
           ∧ same_tables arial_state s').
Proof.
  split.
  - apply (proj1 (lookup_miss_is_null arial_world arial_state "Verdana")).
    vm_compute. reflexivity.
  - apply (proj2 (proj1 (proj2 (proj2
             (lookup_miss_is_null out_of_memory_world arial_state "Arial")))
             (std_exception "bad allocation") eq_refl)).
Defined.

(** ** C8 *)

(** C8. [cleanup] returns and leaves both tables as they were, so each
    lookup gives after it the value it gave before it, for every key. *)
Theorem cleanup_keeps_tables (s : State) :
  ∃ s', cleanup s = Returned tt s'
        ∧ same_tables s s'
        ∧ ∀ w key,
            returned_value (get_gdi_family_from_directwrite w key s')
            = returned_value (get_gdi_family_from_directwrite w key s)
            ∧ returned_value (get_directwrite_family_from_gdi w key s')
              = returned_value (get_directwrite_family_from_gdi w key s).
Proof.
  exists s. split; [done |]. split; [apply same_tables_refl |].
  intros w key. apply lookup_values_same_tables, same_tables_refl.
Qed.

(** ** C10 *)

(** C10. Each lookup returns and leaves both tables as they were, for
    every key; hence, after any run of lookups and [cleanup] calls with no
    call of [init] among them, a lookup of a key gives the value it gave
    before that run. *)
Theorem lookups_read_only (w : World) (key : string) (s : State) :
  (∃ r s', get_gdi_family_from_directwrite w key s = Returned r s'
           ∧ same_tables s s')
  ∧ (∃ r s', get_directwrite_family_from_gdi w key s = Returned r s'
             ∧ same_tables s s')
  ∧ ∀ s', no_init_between s s' →
      returned_value (get_gdi_family_from_directwrite w key s')
      = returned_value (get_gdi_family_from_directwrite w key s)
      ∧ returned_value (get_directwrite_family_from_gdi w key s')
        = returned_value (get_directwrite_family_from_gdi w key s).
Proof.
  split; [| split].
  - destruct (get_gdi_family_from_directwrite_spec w key s) as (s' & ? & ?).
    eauto.
  - destruct (get_directwrite_family_from_gdi_spec w key s) as (s' & ? & ?).
    eauto.
  - intros s' Hquiet.
    by apply lookup_values_same_tables, no_init_between_same_tables.
Qed.

Lemma lookups_read_only_witness :
  returned_value (get_gdi_family_from_directwrite arial_world "Arial Black"
                    arial_state_after_lookup)
  = returned_value (get_gdi_family_from_directwrite arial_world "Arial Black"
                      arial_state)
  ∧ returned_value (get_directwrite_family_from_gdi arial_world "Arial Black"
                      arial_state_after_lookup)
    = returned_value (get_directwrite_family_from_gdi arial_world
                        "Arial Black" arial_state).
Proof.
  apply (proj2 (proj2 (lookups_read_only arial_world "Arial Black"
                         arial_state))).
  apply (no_init_get_gdi out_of_memory_world "Arial" _ arial_state None).
  - apply no_init_refl.
  - vm_compute. reflexivity.
Defined.

(** ** C9 *)

Lemma same_tables_invariant s s' :
  same_tables s s' → cross_table_invariant s → cross_table_invariant s'.
Proof.
  intros [Hgdi Hdw] [H1 H2]. split; intros k v; rewrite Hgdi, Hdw; eauto.
Qed.

Lemma same_tables_keys T s s' k :
  same_tables s s' →
  is_Some (table_of T s !! k) → is_Some (table_of T s' !! k).
Proof. intros [Hgdi Hdw]. destruct T; simpl; by rewrite ?Hgdi, ?Hdw. Qed.

(** What an operation does to the tables: [init] may write them, the
    other three leave them as they are. *)
Lemma operation_step_cases s s' :
  operation_step s s' →
  (∃ w b, init w s = Returned b s') ∨ same_tables s s'.
Proof.
  intros [w s0 b s0' Hstep | s0 s0' Hstep | w key s0 r s0' Hstep
          | w key s0 r s0' Hstep].
  - left. eauto.
  - right. unfold cleanup, mret, M_ret in Hstep. simplify_eq.
    apply same_tables_refl.
  - right. destruct (get_gdi_family_from_directwrite_spec w key s0)
      as (s2 & Hrun & Hsame).
    rewrite Hrun in Hstep. by simplify_eq.
  - right. destruct (get_directwrite_family_from_gdi_spec w key s0)
      as (s2 & Hrun & Hsame).
    rewrite Hrun in Hstep. by simplify_eq.
Qed.

(** C9. The tables start with every value of [gdi_to_directwrite] a key
    of [directwrite_to_gdi] and every value of [directwrite_to_gdi] a key
    of [gdi_to_directwrite]; each of [init], [cleanup] and the two lookups
    keeps that, and removes no key of either table; so it holds in every
    state the process can reach. *)
Theorem cross_table_invariant_kept :
  cross_table_invariant initial_state
  ∧ (∀ s s', operation_step s s' →
             cross_table_invariant s → cross_table_invariant s')
  ∧ (∀ s s' T k, operation_step s s' →
                 is_Some (table_of T s !! k) → is_Some (table_of T s' !! k))
  ∧ (∀ s, reachable s → cross_table_invariant s).
Proof.
  assert (cross_table_invariant initial_state) as Hstart.
  { split; intros k v Hkv; simpl in Hkv; by rewrite lookup_empty in Hkv. }
  assert (∀ s s', operation_step s s' →
                  cross_table_invariant s → cross_table_invariant s')
    as Hkept.
  { intros s s' Hstep Hinv.
    destruct (operation_step_cases s s' Hstep) as [(w & b & Hinit) | Hsame].
    - by eapply init_keeps_invariant.
    - by eapply same_tables_invariant. }
  split; [done |]. split; [done |]. split.
  - intros s s' T k Hstep Hk.
    destruct (operation_step_cases s s' Hstep) as [(w & b & Hinit) | Hsame].
    + by eapply init_keeps_keys.
    + by eapply same_tables_keys.
  - induction 1 as [| s s' _ IH Hstep]; [done |]. by eapply Hkept.
Qed.

Lemma cross_table_invariant_kept_witness :
  cross_table_invariant arial_state.
Proof.
  apply (proj2 (proj2 (proj2 cross_table_invariant_kept)) arial_state).
  apply (reachable_step initial_state); [apply reachable_start |].
  apply (step_init arial_world initial_state true).
  vm_compute. reflexivity.
Defined.

(** ** C4 *)

(** C4. Either table, after a call of [init] that returns, still has every
    key it had before the call; it maps a key to the value of the last
    family of the enumeration that resolved with that key, whatever the
    table or an earlier family of the same call had stored under it; and
    a key that no family of the call resolved with keeps its entry.  In
    the scenario of two families resolving to ("Arial", "Arial") and then
    ("Arial", "Arial Black"), [directwrite_to_gdi] maps "Arial Black" to
    "Arial" and [gdi_to_directwrite] maps "Arial" to "Arial Black", the
    name resolved last. *)
Theorem last_write_wins (w : World) (s s' : State) (b : bool) (T : Table) :
  init w s = Returned b s' →
  (∀ k, is_Some (table_of T s !! k) → is_Some (table_of T s' !! k))
  ∧ (∀ factory fc j k v,
       enumerates w factory fc →
       0 ≤ j < family_count fc →
       entry_of T (resolution_at w factory fc j) = Some (k, v) →
       (∀ j' v', j < j' < family_count fc →
                 entry_of T (resolution_at w factory fc j') ≠ Some (k, v')) →
       table_of T s' !! k = Some v)
  ∧ (∀ factory fc k,
       enumerates w factory fc →
       (∀ j v, 0 ≤ j < family_count fc →
               entry_of T (resolution_at w factory fc j) ≠ Some (k, v)) →
       table_of T s' !! k = table_of T s !! k)
  ∧ (init arial_world initial_state = Returned true arial_state
     ∧ directwrite_to_gdi arial_state !! "Arial Black" = Some "Arial"
     ∧ gdi_to_directwrite arial_state !! "Arial" = Some "Arial Black").
Proof.
  intros Hinit. split; [| split; [| split]].
  - intros k. by eapply init_keeps_keys.
  - intros factory fc j k v Henum Hj Hentry Hlast.
    destruct (init_returned w factory fc s b s' Henum Hinit) as [_ Hrun].
    rewrite (seqZ_split _ j Hj) in Hrun.
    eapply loop_last_write; [done | done |].
    intros i v' Hi Hi'. destruct (Hlast i v'); [| done].
    apply elem_of_seqZ in Hi. lia.
  - intros factory fc k Henum Hnone.
    destruct (init_returned w factory fc s b s' Henum Hinit) as [_ Hrun].
    apply (loop_table_ind w factory fc T (λ m, m !! k = table_of T s !! k)
             (seqZ 0 (family_count fc)) s s'); [| done | done].
    intros i m Hi Hm. apply elem_of_seqZ in Hi.
    destruct (entry_of T (resolution_at w factory fc i)) as [[k' v'] |]
      eqn:Hentry; simpl; [| done].
    rewrite lookup_insert_ne; [done |]. intros ->.
    destruct (Hnone i v'); [lia | done].
  - vm_compute. done.
Qed.

Lemma last_write_wins_witness :
  directwrite_to_gdi arial_state !! "Arial Black" = Some "Arial"
  ∧ gdi_to_directwrite arial_state !! "Arial" = Some "Arial Black".
Proof.
  assert (init arial_world initial_state = Returned true arial_state)
    as Hinit by (vm_compute; reflexivity).
  split.
  - apply (proj1 (proj2 (last_write_wins arial_world initial_state
                           arial_state true Directwrite_to_gdi Hinit))
             (factory_of arial_families arial_faces)
             (font_collection arial_families) 1 "Arial Black" "Arial").
    + split; reflexivity.
    + vm_compute. split; discriminate || reflexivity.
    + vm_compute. reflexivity.
    + intros j v' Hj. exfalso.
      change (family_count (font_collection arial_families)) with 2 in Hj.
      lia.
  - apply (proj1 (proj2 (last_write_wins arial_world initial_state
                           arial_state true Gdi_to_directwrite Hinit))
             (factory_of arial_families arial_faces)
             (font_collection arial_families) 1 "Arial" "Arial Black").
    + split; reflexivity.
    + vm_compute. split; discriminate || reflexivity.
    + vm_compute. reflexivity.
    + intros j v' Hj. exfalso.
      change (family_count (font_collection arial_families)) with 2 in Hj.
      lia.
Defined.

(** ** C2 *)

(** C2, as stated, fails in the Arial scenario: family A, at index 0,
    resolves with the pair ("Arial", "Arial"), [init] returns [true], and
    [get_directwrite_family_from_gdi] of "Arial" returns "Arial Black",
    the name of family B. *)
Lemma resolved_pair_lookup_counterexample :
  ∃ factory fc,
    enumerates arial_world factory fc
    ∧ resolution_at arial_world factory fc 0 = Resolved "Arial" "Arial"
    ∧ init arial_world initial_state = Returned true arial_state
    ∧ returned_value
        (get_directwrite_family_from_gdi arial_world "Arial" arial_state)
      = Some (Some "Arial Black")
    ∧ returned_value
        (get_directwrite_family_from_gdi arial_world "Arial" arial_state)
      ≠ Some (Some "Arial").
Proof.
  eexists _, _. split; [split; reflexivity |].
  vm_compute. repeat split; done.
Qed.

(** C2, amended. Let the family at index [i] of the enumerated font set
    resolve with the pair [(legacy, modern)], and let [init] return
    [true].  Then [get_directwrite_family_from_gdi legacy] returns
    [modern] unless a family enumerated after it resolves with the same
    legacy name and another modern name, and
    [get_gdi_family_from_directwrite modern] returns [legacy] unless a
    family enumerated after it resolves with the same modern name and
    another legacy name.  The lookups are those in which the runtime
    builds the key without throwing. *)
Theorem resolved_pair_lookup (w : World) (factory : IDWriteFactory)
    (fc : IDWriteFontCollection) (s s' : State) (i : Z)
    (legacy modern : string) :
  enumerates w factory fc →
  0 ≤ i < family_count fc →
  resolution_at w factory fc i = Resolved legacy modern →
  init w s = Returned true s' →
  ((∀ j modern', i < j < family_count fc →
                 resolution_at w factory fc j = Resolved legacy modern' →
                 modern' = modern) →
   std_string w legacy = None →
   ∃ s'', get_directwrite_family_from_gdi w legacy s'
          = Returned (Some modern) s'')
  ∧ ((∀ j legacy', i < j < family_count fc →
                   resolution_at w factory fc j = Resolved legacy' modern →
                   legacy' = legacy) →
     std_string w modern = None →
     ∃ s'', get_gdi_family_from_directwrite w modern s'
            = Returned (Some legacy) s'').
Proof.
  intros Henum Hi Hres Hinit.
  destruct (init_returned w factory fc s true s' Henum Hinit) as [_ Hrun].
  rewrite (seqZ_split _ i Hi) in Hrun.
  split; intros Hlater Hkey.
  - assert (gdi_to_directwrite s' !! legacy = Some modern) as Hhit.
    { apply (loop_last_write w factory fc Gdi_to_directwrite _ _ _ _ _ _ _
               Hrun).
      - by rewrite Hres.
      - intros j v' Hj Hentry. apply elem_of_seqZ in Hj.
        destruct (resolution_at w factory fc j) as [g d | |] eqn:Hrj;
          simplify_eq/=.
        apply (Hlater j); [lia | done]. }
    destruct (get_directwrite_family_from_gdi_spec w legacy s')
      as (s'' & Hlookup & _).
    exists s''. by rewrite Hlookup, (try_at_hit _ _ _ _ Hkey Hhit).
  - assert (directwrite_to_gdi s' !! modern = Some legacy) as Hhit.
    { apply (loop_last_write w factory fc Directwrite_to_gdi _ _ _ _ _ _ _
               Hrun).
      - by rewrite Hres.
      - intros j v' Hj Hentry. apply elem_of_seqZ in Hj.
        destruct (resolution_at w factory fc j) as [g d | |] eqn:Hrj;
          simplify_eq/=.
        apply (Hlater j); [lia | done]. }
    destruct (get_gdi_family_from_directwrite_spec w modern s')
      as (s'' & Hlookup & _).
    exists s''. by rewrite Hlookup, (try_at_hit _ _ _ _ Hkey Hhit).
Qed.

Lemma resolved_pair_lookup_witness :
  (∃ s'', get_directwrite_family_from_gdi arial_world "Arial" arial_state
          = Returned (Some "Arial Black") s'')
  ∧ (∃ s'', get_gdi_family_from_directwrite arial_world "Arial Black"
              arial_state = Returned (Some "Arial") s'').
Proof.
  assert (family_count (font_collection arial_families) = 2) as Hcount
    by reflexivity.
  destruct (resolved_pair_lookup arial_world
              (factory_of arial_families arial_faces)
              (font_collection arial_families)
              initial_state arial_state 1 "Arial" "Arial Black")
    as [H1 H2].
  - split; reflexivity.
  - rewrite Hcount. lia.
  - vm_compute. reflexivity.
  - vm_compute. reflexivity.
  - split.
    + apply H1; [| reflexivity]. intros j x Hj. rewrite Hcount in Hj. lia.
    + apply H2; [| reflexivity]. intros j x Hj. rewrite Hcount in Hj. lia.
Defined.

(** ** C6 *)

(** The one path of the resolver that has no handler: when every call up
    to the conversion succeeds and the converter throws on the family's
    name, [get_family_name_of_cur_locale] ends the process. *)
Lemma converter_failure_terminates (w : World)
    (font_family : IDWriteFontFamily) family_names index is_exist len
    family_name e (s : State) :
  GetFamilyNames font_family = SUCCEEDED family_names →
  FindLocaleName family_names (resolved_locale w)
  = SUCCEEDED (index, is_exist) →
  GetStringLength family_names index = SUCCEEDED len →
  new_wchar_t w (UINT32_succ len) = None →
  GetString family_names index (UINT32_succ len) = SUCCEEDED family_name →
  to_bytes w (c_wstr family_name) = inl e →
  get_family_name_of_cur_locale w font_family s = Terminated.
Proof.
  intros Hnames Hfind Hlen Hnew Hget Hconv.
  unfold get_family_name_of_cur_locale, resolved_locale in *.
  unfold mbind at 1. unfold M_bind at 1.
  destruct (GetUserDefaultLocaleName w) as [locale_name |].
  - unfold mret, M_ret. by rewrite Hnames, Hfind, Hlen, Hnew, Hget, Hconv.
  - destruct (returns_log_warning (logger w)
                "Failed to get the default locale. Defaulting to en_us" s)
      as (s1 & Hlog & _).
    unfold mbind, M_bind, mret, M_ret. rewrite Hlog.
    by rewrite Hnames, Hfind, Hlen, Hnew, Hget, Hconv.
Qed.


(** C6. Per-family failures are to be skipped, but the failure of the
    encoding converter in [get_family_name_of_cur_locale] is not: with a
    font set whose second family has a name holding a high surrogate and
    no low surrogate after it, the converter throws on that name, the
    family's resolution ends the process, the third family is never
    looked at, and [init] does not return. *)
Theorem unpaired_surrogate_ends_init :
  ∃ factory fc,
    enumerates unpaired_surrogate_world factory fc
    ∧ family_count fc = 3
    ∧ to_bytes unpaired_surrogate_world [55296%N; 65%N]
      = inl (std_exception "bad conversion")
    ∧ resolution_at unpaired_surrogate_world factory fc 0
      = Resolved "Arial" "Arial"
    ∧ resolution_at unpaired_surrogate_world factory fc 1 = Crashed
    ∧ init unpaired_surrogate_world initial_state = Terminated.
Proof.
  eexists _, _. split; [split; reflexivity |].
  vm_compute. repeat split; done.
Qed.

(** The sibling conversion, of the face name in
    [get_gdi_and_directwrite_family_name], has a handler: the same
    surrogate in the face name of the second family makes that family a
    skipped one, the third family is resolved, and [init] returns [true]. *)
Lemma unpaired_surrogate_in_face_name_is_skipped :
  ∃ factory fc s',
    enumerates unpaired_surrogate_face_world factory fc
    ∧ resolution_at unpaired_surrogate_face_world factory fc 1 = Skipped
    ∧ init unpaired_surrogate_face_world initial_state = Returned true s'
    ∧ gdi_to_directwrite s' !! "Arial" = Some "Arial"
    ∧ gdi_to_directwrite s' !! "Verdana" = Some "Verdana".
Proof.
  eexists _, _, _. split; [split; reflexivity |].
  vm_compute. repeat split; done.
Qed.

(** * Further properties of the source *)

(** ** Running the monad *)

Lemma bind_returned {A B} (m : M A) (f : A → M B) a s s1 :
  m s = Returned a s1 → (m ≫= f) s = f a s1.
Proof. intros Hm. unfold mbind, M_bind. by rewrite Hm. Qed.

Lemma bind_terminated {A B} (m : M A) (f : A → M B) s :
  m s = Terminated → (m ≫= f) s = Terminated.
Proof. intros Hm. unfold mbind, M_bind. by rewrite Hm. Qed.


(** ** The logger (logging.cpp) *)




(** X2. [get_win_error_msg] hands back the text [FormatMessage] produced
    and leaves the state alone; when [FormatMessage] produces none it
    hands back the empty string and writes one error line, which names the
    function and gives [GetLastError] in decimal, whatever [LOG_LEVEL]
    the library was built with. *)
Theorem get_win_error_msg_result (w : World) (r : HRESULT) (s : State) :
  (∀ msg, FormatMessage w r = Some msg →
          get_win_error_msg w r s = Returned msg s)
  ∧ (FormatMessage w r = None →
     get_win_error_msg w r s
     = Returned ""
         (append_cerr
            ["ERROR:" +:+ FUNCTION w "get_win_error_msg" +:+ ":"
             +:+ "FormatMessage failed with : "
             +:+ to_string (GetLastError w)] s)).
Proof.
  unfold get_win_error_msg. split.
  - by intros msg ->.
  - by intros ->.
Qed.

Lemma get_win_error_msg_result_witness :
  get_win_error_msg no_factory_world E_FAIL initial_state
  = Returned ""
      (append_cerr ["ERROR:get_win_error_msg:FormatMessage failed with : 87"]
         initial_state).
Proof.
  apply (proj2 (get_win_error_msg_result no_factory_world E_FAIL
                  initial_state)).
  reflexivity.
Defined.



(** ** Outcomes, whatever the state *)

Lemma outcome_is_returns {A} (m : M A) (a : A) (P : option A → Prop) :
  returns m a → P (Some a) → outcome_is m P.
Proof. intros Hm HP s. by destruct (Hm s) as (s' & -> & _). Qed.

Lemma outcome_is_terminate {A} (P : option A → Prop) :
  P None → outcome_is (@terminate A) P.
Proof. by intros HP s. Qed.

Lemma outcome_is_bind {A B} (m : M A) (f : A → M B)
    (Q : option A → Prop) (P : option B → Prop) :
  outcome_is m Q →
  (∀ a, Q (Some a) → outcome_is (f a) P) →
  (Q None → P None) →
  outcome_is (m ≫= f) P.
Proof.
  intros Hm Hf Hend s. specialize (Hm s). unfold mbind, M_bind.
  destruct (m s) as [a s1 |]; simpl in *.
  - by apply Hf.
  - by apply Hend.
Qed.

Lemma outcome_is_bind_returns {A B} (m : M A) (f : A → M B) (a : A)
    (P : option B → Prop) :
  returns m a → outcome_is (f a) P → outcome_is (m ≫= f) P.
Proof.
  intros Hm Hf s. destruct (Hm s) as (s1 & Hrun & _).
  rewrite (bind_returned _ _ _ _ _ Hrun). apply Hf.
Qed.

(** ** [get_family_name_of_cur_locale] *)

Lemma name_steps_functional w font_family r1 r2 :
  name_steps w font_family r1 → name_steps w font_family r2 → r1 = r2.
Proof.
  intros (n1 & i1 & x1 & l1 & b1 & A1 & A2 & A3 & A4 & A5 & A6)
         (n2 & i2 & x2 & l2 & b2 & B1 & B2 & B3 & B4 & B5 & B6).
  congruence.
Qed.

Lemma get_family_name_of_cur_locale_name_outcome w font_family :
  outcome_is (get_family_name_of_cur_locale w font_family)
             (name_outcome w font_family).
Proof.
  unfold get_family_name_of_cur_locale.
  apply (outcome_is_bind_returns _ _ (resolved_locale w)).
  { unfold resolved_locale. destruct (GetUserDefaultLocaleName w).
    - apply returns_ret.
    - eapply returns_bind; [apply returns_log_warning | apply returns_ret]. }
  destruct (GetFamilyNames font_family) as [family_names | hr] eqn:Hnames.
  2: { apply (outcome_is_returns _ None);
         [apply (returns_error_path w _ (λ msg, _ +:+ msg)) |].
       intros r (? & ? & ? & ? & ? & ? & ? & ? & ? & ? & ?). congruence. }
  destruct (FindLocaleName family_names (resolved_locale w))
    as [[index is_exist] | hr] eqn:Hfind.
  2: { apply (outcome_is_returns _ None);
         [apply (returns_error_path w _ (λ msg, _ +:+ msg)) |].
       intros r (? & ? & ? & ? & ? & ? & ? & ? & ? & ? & ?). congruence. }
  destruct (GetStringLength family_names index) as [len | hr] eqn:Hlen.
  2: { apply (outcome_is_returns _ None);
         [apply (returns_error_path w _ (λ msg, _ +:+ msg)) |].
       intros r (? & ? & ? & ? & ? & ? & ? & ? & ? & ? & ?). congruence. }
  destruct (new_wchar_t w (UINT32_succ len)) as [e |] eqn:Hnew.
  { apply (outcome_is_returns _ None).
    - eapply returns_bind; [apply returns_log_error | apply returns_ret].
    - intros r (? & ? & ? & ? & ? & ? & ? & ? & ? & ? & ?). congruence. }
  destruct (GetString family_names index (UINT32_succ len))
    as [family_name | hr] eqn:Hget.
  2: { apply (outcome_is_returns _ None);
         [apply (returns_error_path w _ (λ msg, _ +:+ msg)) |].
       intros r (? & ? & ? & ? & ? & ? & ? & ? & ? & ? & ?). congruence. }
  destruct (to_bytes w (c_wstr family_name)) as [e | result] eqn:Hconv.
  - apply outcome_is_terminate. exists e.
    by exists family_names, index, is_exist, len, family_name.
  - apply (outcome_is_returns _ (Some result)); [apply returns_ret |].
    by exists family_names, index, is_exist, len, family_name.
Qed.

Lemma name_steps_returns w font_family result :
  name_steps w font_family (inr result) →
  returns (get_family_name_of_cur_locale w font_family) (Some result).
Proof.
  intros Hsteps.
  apply logs_only_returns;
    [apply logs_only_get_family_name_of_cur_locale |].
  pose proof (get_family_name_of_cur_locale_name_outcome w font_family
                initial_state) as Hout.
  destruct (get_family_name_of_cur_locale w font_family initial_state)
    as [[r |] s1 |]; simpl in *.
  - by rewrite (inr_inj _ _ (name_steps_functional _ _ _ _ Hout Hsteps)).
  - by destruct (Hout _ Hsteps).
  - destruct Hout as [e He].
    by pose proof (name_steps_functional _ _ _ _ He Hsteps).
Qed.

(** X4. What [get_family_name_of_cur_locale] comes to is decided by its
    calls, from every state: it returns a name exactly when the family's
    names, the index of the looked-up locale, the length, the buffer and
    the string are obtained and the converter converts the string (the
    name is then the converted string up to its terminator); it ends the
    process exactly when all those calls succeed and the converter
    throws; it returns [std::nullopt] exactly when one of the calls
    fails.  The [exists] flag of [FindLocaleName] plays no part. *)
Theorem get_family_name_of_cur_locale_outcome (w : World)
    (font_family : IDWriteFontFamily) (s : State) :
  (∀ result,
     (∃ s', get_family_name_of_cur_locale w font_family s
            = Returned (Some result) s')
     ↔ name_steps w font_family (inr result))
  ∧ (get_family_name_of_cur_locale w font_family s = Terminated
     ↔ ∃ e, name_steps w font_family (inl e))
  ∧ ((∃ s', get_family_name_of_cur_locale w font_family s = Returned None s')
     ↔ ∀ r, ¬ name_steps w font_family r).
Proof.
  pose proof (get_family_name_of_cur_locale_name_outcome w font_family s)
    as Hout.
  destruct (get_family_name_of_cur_locale w font_family s)
    as [[r |] s1 |] eqn:Hrun; simpl in Hout.
  - split; [| split].
    + intros result. split.
      * intros (s' & ?). by simplify_eq.
      * intros Hsteps.
        rewrite (inr_inj _ _ (name_steps_functional _ _ _ _ Hout Hsteps)).
        by exists s1.
    + split; [done |]. intros [e He].
      by pose proof (name_steps_functional _ _ _ _ Hout He).
    + split; [intros (s' & ?); by simplify_eq |].
      intros Hnone. by destruct (Hnone _ Hout).
  - split; [| split].
    + intros result. split; [intros (s' & ?); by simplify_eq |].
      intros Hsteps. by destruct (Hout _ Hsteps).
    + split; [done |]. intros [e He]. by destruct (Hout _ He).
    + split; [done |]. intros _. by exists s1.
  - destruct Hout as [e He]. split; [| split].
    + intros result. split; [intros (s' & ?); by simplify_eq |].
      intros Hsteps. by pose proof (name_steps_functional _ _ _ _ He Hsteps).
    + split; [by exists e | done].
    + split; [intros (s' & ?); by simplify_eq |].
      intros Hnone. by destruct (Hnone _ He).
Qed.

Lemma get_family_name_of_cur_locale_outcome_witness :
  ∃ s', get_family_name_of_cur_locale arial_world
          (family_named 4096 (L "Arial") 1%N) initial_state
        = Returned (Some "Arial") s'.
Proof.
  apply (proj1 (get_family_name_of_cur_locale_outcome arial_world
                  (family_named 4096 (L "Arial") 1%N) initial_state)).
  eexists _, 0%N, true, 5%N, (L "Arial" ++ [0%N]).
  repeat split; vm_compute; reflexivity.
Defined.

Lemma lookupN_middle {A} (before : list A) (x : A) (after : list A) :
  lookupN (before ++ x :: after) (N.of_nat (length before)) = Some x.
Proof.
  induction before as [| y before IH]; [done |].
  cbn [app length lookupN].
  destruct (N.eqb_spec (N.of_nat (S (length before))) 0) as [Hz | _]; [lia |].
  replace (N.pred (N.of_nat (S (length before))))
    with (N.of_nat (length before)) by lia.
  apply IH.
Qed.

Lemma find_locale_first matches locale_name before locale str after i :
  Forall (λ v, matches locale_name v.1 = false) before →
  matches locale_name locale = true →
  find_locale matches locale_name (before ++ (locale, str) :: after) i
  = Some (i + N.of_nat (length before))%N.
Proof.
  intros Hbefore Hmatch. revert i.
  induction Hbefore as [| [loc0 str0] before Hx _ IH]; intros i.
  - cbn [app find_locale length]. rewrite Hmatch. f_equal. lia.
  - cbn [app find_locale length]. simpl in Hx. rewrite Hx, IH. f_equal. lia.
Qed.

Lemma c_wstr_terminated (str : list wchar_t) :
  c_wstr (str ++ [0%N]) = c_wstr str.
Proof.
  induction str as [| c str IH]; simpl; [done |].
  destruct (c =? 0)%N; [done | by rewrite IH].
Qed.

(** X5. On a table of localized names, the resolver returns the name of
    the first variant, in index order, whose locale name matches the tag
    it looks up, converted up to the first terminator inside the string:
    the buffer of length plus one that it asks for is always enough. *)
Theorem first_matching_variant_is_returned (w : World)
    (font_family : IDWriteFontFamily) (t : LocalizedTable)
    (before after : list (list wchar_t * list wchar_t))
    (locale str : list wchar_t) (result : string) (s : State) :
  GetFamilyNames font_family = SUCCEEDED (localized_strings t) →
  FindLocaleName_error t = None →
  GetStringLength_error t = None →
  GetString_error t = None →
  variants t = before ++ (locale, str) :: after →
  Forall (λ v, locale_matches t (resolved_locale w) v.1 = false) before →
  locale_matches t (resolved_locale w) locale = true →
  (N.of_nat (length str) < UINT_MAX)%N →
  new_wchar_t w (UINT32_succ (N.of_nat (length str))) = None →
  to_bytes w (c_wstr str) = inr result →
  ∃ s', get_family_name_of_cur_locale w font_family s
        = Returned (Some result) s'
        ∧ same_tables s s'.
Proof.
  intros Hnames Hf1 Hf2 Hf3 Hvariants Hbefore Hmatch Hlen Hnew Hconv.
  apply name_steps_returns.
  exists (localized_strings t), (N.of_nat (length before)), true,
    (N.of_nat (length str)), (str ++ [0%N]).
  split; [done |]. simpl.
  rewrite Hf1, Hf2, Hf3, Hvariants, lookupN_middle.
  rewrite (find_locale_first _ _ _ _ _ _ _ Hbefore Hmatch).
  split; [by rewrite N.add_0_l |]. split; [done |]. split; [done |].
  split; [| by rewrite c_wstr_terminated].
  assert ((N.of_nat (length str) <? UINT32_succ (N.of_nat (length str)))%N
          = true) as ->; [| done].
  apply N.ltb_lt. unfold UINT32_succ, UINT_MAX in *.
  rewrite N.mod_small; lia.
Qed.

Lemma first_matching_variant_is_returned_witness :
  ∃ s', get_family_name_of_cur_locale arial_world two_english_names_family
          initial_state = Returned (Some "Arial") s'
        ∧ same_tables initial_state s'.
Proof.
  apply (first_matching_variant_is_returned arial_world
           two_english_names_family _
           [(L "ja-jp", L "Meiryo")] [(L "en-us", L "Helvetica")]
           (L "en-us") (L "Arial" ++ [0%N] ++ L "Bold") "Arial"
           initial_state eq_refl eq_refl eq_refl eq_refl eq_refl).
  - repeat constructor.
  - reflexivity.
  - vm_compute. reflexivity.
  - reflexivity.
  - vm_compute. reflexivity.
Defined.

(** ** [get_gdi_and_directwrite_family_name] *)

Lemma bridge_steps_functional w factory font_family r1 r2 :
  bridge_steps w factory font_family r1 →
  bridge_steps w factory font_family r2 → r1 = r2.
Proof.
  intros (f1 & i1 & l1 & y1 & A1 & A2 & A3 & A4)
         (f2 & i2 & l2 & y2 & B1 & B2 & B3 & B4).
  congruence.
Qed.

Lemma get_gdi_and_directwrite_family_name_names_outcome w factory
    font_family :
  outcome_is (get_gdi_and_directwrite_family_name w factory font_family)
             (names_outcome w factory font_family).
Proof.
  unfold get_gdi_and_directwrite_family_name.
  apply (outcome_is_bind _ _ (name_outcome w font_family));
    [apply get_family_name_of_cur_locale_name_outcome | | done].
  intros [dw |] Hname; simpl in Hname.
  2: { apply (outcome_is_returns _ None); [| by left].
       eapply returns_bind; [apply returns_log_error | apply returns_ret]. }
  destruct (GetFirstMatchingFont font_family) as [dwrite_font | hr] eqn:Hfont.
  2: { apply (outcome_is_returns _ None);
         [apply (returns_error_path w _ (λ msg, _ +:+ msg)) |].
       right. exists dw. split; [done |].
       intros gdi (? & ? & ? & ? & ? & ? & ? & ?). congruence. }
  destruct (GetGdiInterop factory) as [interop | hr] eqn:Hinterop.
  2: { apply (outcome_is_returns _ None);
         [apply (returns_error_path w _ (λ msg, _ +:+ msg)) |].
       right. exists dw. split; [done |].
       intros gdi (? & ? & ? & ? & ? & ? & ? & ?). congruence. }
  destruct (ConvertFontToLOGFONT interop dwrite_font)
    as [[lf is_system_font] | hr] eqn:Hconvert.
  2: { apply (outcome_is_returns _ None);
         [apply (returns_error_path w _ (λ msg, _ +:+ msg)) |].
       right. exists dw. split; [done |].
       intros gdi (? & ? & ? & ? & ? & ? & ? & ?). congruence. }
  destruct (to_bytes w (c_wstr (lfFaceName lf))) as [e | gdi] eqn:Hconv.
  - apply (outcome_is_returns _ None).
    + eapply returns_bind; [apply returns_log_error | apply returns_ret].
    + right. exists dw. split; [done |].
      intros gdi (? & ? & ? & ? & ? & ? & ? & ?). congruence.
  - apply (outcome_is_returns _ (Some (gdi, dw))); [apply returns_ret |].
    split; [done |]. by exists dwrite_font, interop, lf, is_system_font.
Qed.

(** X6. [get_gdi_and_directwrite_family_name] returns a pair exactly when
    the name is resolved and the first matching font, the bridge, the
    conversion to [LOGFONT] and the conversion of the face name all
    succeed; the pair is then the converted face name first and the
    resolved name second.  It ends the process exactly when the name
    resolution does: a converter that throws on the face name gives
    [std::nullopt]. *)
Theorem get_gdi_and_directwrite_family_name_outcome (w : World)
    (factory : IDWriteFactory) (font_family : IDWriteFontFamily)
    (s : State) :
  (∀ gdi dw,
     (∃ s', get_gdi_and_directwrite_family_name w factory font_family s
            = Returned (Some (gdi, dw)) s')
     ↔ name_steps w font_family (inr dw)
       ∧ bridge_steps w factory font_family (inr gdi))
  ∧ (get_gdi_and_directwrite_family_name w factory font_family s = Terminated
     ↔ ∃ e, name_steps w font_family (inl e))
  ∧ (∀ dw e,
       name_steps w font_family (inr dw) →
       bridge_steps w factory font_family (inl e) →
       ∃ s', get_gdi_and_directwrite_family_name w factory font_family s
             = Returned None s').
Proof.
  pose proof (get_gdi_and_directwrite_family_name_names_outcome w factory
                font_family s) as Hout.
  destruct (get_gdi_and_directwrite_family_name w factory font_family s)
    as [[[g d] |] s1 |] eqn:Hrun; simpl in Hout.
  - destruct Hout as [Hname Hbridge]. split; [| split].
    + intros gdi dw. split.
      * intros (s' & ?). by simplify_eq.
      * intros [Hn Hb].
        rewrite (inr_inj _ _ (name_steps_functional _ _ _ _ Hname Hn)).
        rewrite (inr_inj _ _ (bridge_steps_functional _ _ _ _ _ Hbridge Hb)).
        by exists s1.
    + split; [done |]. intros [e He].
      by pose proof (name_steps_functional _ _ _ _ Hname He).
    + intros dw e _ Hb.
      by pose proof (bridge_steps_functional _ _ _ _ _ Hbridge Hb).
  - split; [| split].
    + intros gdi dw. split; [intros (s' & ?); by simplify_eq |].
      intros [Hn Hb]. destruct Hout as [Hnone | (dw' & _ & Hnone)].
      * by destruct (Hnone _ Hn).
      * by destruct (Hnone _ Hb).
    + split; [done |]. intros [e He].
      destruct Hout as [Hnone | (dw' & Hn & _)].
      * by destruct (Hnone _ He).
      * by pose proof (name_steps_functional _ _ _ _ Hn He).
    + intros dw e _ _. by exists s1.
  - destruct Hout as [e He]. split; [| split].
    + intros gdi dw. split; [intros (s' & ?); by simplify_eq |].
      intros [Hn _]. by pose proof (name_steps_functional _ _ _ _ He Hn).
    + split; [by exists e | done].
    + intros dw e' Hn _.
      by pose proof (name_steps_functional _ _ _ _ He Hn).
Qed.

Lemma get_gdi_and_directwrite_family_name_outcome_witness :
  ∃ s', get_gdi_and_directwrite_family_name arial_world
          (factory_of arial_families arial_faces)
          (family_named 8192 (L "Arial Black") 2%N) initial_state
        = Returned (Some ("Arial", "Arial Black")) s'.
Proof.
  apply (proj1 (get_gdi_and_directwrite_family_name_outcome arial_world
                  (factory_of arial_families arial_faces)
                  (family_named 8192 (L "Arial Black") 2%N) initial_state)).
  split.
  - eexists _, 0%N, true, 11%N, (L "Arial Black" ++ [0%N]).
    repeat split; vm_compute; reflexivity.
  - eexists 2%N, (interop_of arial_faces),
      {| lfFaceName := L "Arial" ++ [0%N] |}, true.
    repeat split; vm_compute; reflexivity.
Defined.

(** ** [init] *)

Lemma fatal_not_enumerates w factory fc :
  fatal w → enumerates w factory fc → False.
Proof.
  intros [[hr Hf] | (f & hr & Hf & Hc)] [He1 He2]; congruence.
Qed.

Lemma enumerates_functional w factory1 fc1 factory2 fc2 :
  enumerates w factory1 fc1 → enumerates w factory2 fc2 →
  factory1 = factory2 ∧ fc1 = fc2.
Proof.
  intros [A1 A2] [B1 B2]. assert (factory1 = factory2) by congruence.
  subst. split; [done | congruence].
Qed.

Lemma crashed_in_list_dec w factory fc (l : list Z) :
  (∀ i, i ∈ l → resolution_at w factory fc i ≠ Crashed)
  ∨ (∃ i, i ∈ l ∧ resolution_at w factory fc i = Crashed).
Proof.
  induction l as [| j l [IH | (i & Hi & Hc)]].
  - left. intros i Hi. by apply elem_of_nil in Hi.
  - destruct (resolution_at w factory fc j) eqn:Hj.
    + left. intros i [-> | Hi]%elem_of_cons; [by rewrite Hj | by apply IH].
    + left. intros i [-> | Hi]%elem_of_cons; [by rewrite Hj | by apply IH].
    + right. exists j. split; [left | done].
  - right. exists i. split; [by right | done].
Qed.

(** X7. What [init] comes to is decided by the platform's answers, from
    every state: it returns [false] exactly when the factory or the
    system font collection cannot be had; it returns [true] exactly when
    both are had and no family of the enumeration ends the process; it
    ends the process exactly when both are had and the resolution of some
    enumerated family does. *)
Theorem init_outcome (w : World) (s : State) :
  ((∃ s', init w s = Returned false s') ↔ fatal w)
  ∧ ((∃ s', init w s = Returned true s')
     ↔ ∃ factory fc,
         enumerates w factory fc
         ∧ ∀ i, 0 ≤ i < family_count fc →
                resolution_at w factory fc i ≠ Crashed)
  ∧ (init w s = Terminated
     ↔ ∃ factory fc i,
         enumerates w factory fc
         ∧ 0 ≤ i < family_count fc
         ∧ resolution_at w factory fc i = Crashed).
Proof.
  destruct (fatal_or_enumerates w) as [Hfatal | (factory & fc & Henum)].
  - destruct (init_fatal w Hfatal s) as (s1 & Hrun & _). rewrite Hrun.
    split; [| split].
    + split; [done | by exists s1].
    + split; [intros (s' & ?); by simplify_eq |].
      intros (f & c & He & _). by destruct (fatal_not_enumerates w f c).
    + split; [done |].
      intros (f & c & i & He & _). by destruct (fatal_not_enumerates w f c).
  - destruct (crashed_in_list_dec w factory fc (seqZ 0 (family_count fc)))
      as [Hgood | (i & Hi & Hc)].
    + destruct (init_returns_true w factory fc s Henum) as [s1 Hrun].
      { intros i Hi. apply Hgood, elem_of_seqZ. lia. }
      rewrite Hrun. split; [| split].
      * split; [intros (s' & ?); by simplify_eq |].
        intros Hfatal. by destruct (fatal_not_enumerates w factory fc).
      * split; [| by exists s1].
        intros _. exists factory, fc. split; [done |].
        intros i Hi. apply Hgood, elem_of_seqZ. lia.
      * split; [done |]. intros (f & c & i & He & Hi & Hc).
        destruct (enumerates_functional _ _ _ _ _ Henum He) as [-> ->].
        destruct (Hgood i); [| done]. apply elem_of_seqZ. lia.
    + apply elem_of_seqZ in Hi.
      rewrite (init_terminates w factory fc s i Henum); [| lia | done].
      split; [| split].
      * split; [by intros (s' & ?) |].
        intros Hfatal. by destruct (fatal_not_enumerates w factory fc).
      * split; [by intros (s' & ?) |]. intros (f & c & He & Hgood).
        destruct (enumerates_functional _ _ _ _ _ Henum He) as [-> ->].
        destruct (Hgood i); [lia | done].
      * split; [| done]. intros _. exists factory, fc, i.
        split; [done |]. split; [lia | done].
Qed.

Lemma init_outcome_witness :
  ∃ s', init arial_world initial_state = Returned true s'.
Proof.
  apply (proj1 (proj2 (init_outcome arial_world initial_state))).
  exists (factory_of arial_families arial_faces),
    (font_collection arial_families).
  split; [split; reflexivity |].
  intros i Hi.
  change (family_count (font_collection arial_families)) with 2 in Hi.
  assert (i = 0 ∨ i = 1) as [-> | ->] by lia; vm_compute; discriminate.
Defined.

(** X8. With a system font collection that counts no family, or counts so
    many that the count is negative as an [int], [init] enumerates
    nothing: it returns [true] and leaves the whole state, tables and log,
    as it was. *)
Theorem init_without_families (w : World) (factory : IDWriteFactory)
    (fc : IDWriteFontCollection) (s : State) :
  enumerates w factory fc →
  (GetFontFamilyCount fc = 0
   ∨ 2 ^ 31 ≤ GetFontFamilyCount fc < 2 ^ 32)%N →
  init w s = Returned true s.
Proof.
  intros Henum Hcount. rewrite (init_loop w factory fc s Henum).
  rewrite seqZ_nil; [done |].
  unfold family_count, int_of_UINT32.
  destruct (Z.of_N (GetFontFamilyCount fc) <? 2 ^ 31) eqn:Hlt.
  - apply Z.ltb_lt in Hlt. lia.
  - lia.
Qed.

Lemma init_without_families_witness :
  init no_family_world initial_state = Returned true initial_state.
Proof.
  apply (init_without_families no_family_world (factory_of [] [])
           (font_collection [])).
  - split; reflexivity.
  - left. reflexivity.
Defined.

Lemma last_entry_for_key w factory fc T k (l : list Z) :
  (∀ i v, i ∈ l → entry_of T (resolution_at w factory fc i) ≠ Some (k, v))
  ∨ (∃ l1 j l2 v,
       l = l1 ++ j :: l2
       ∧ entry_of T (resolution_at w factory fc j) = Some (k, v)
       ∧ ∀ i v', i ∈ l2 →
                 entry_of T (resolution_at w factory fc i) ≠ Some (k, v')).
Proof.
  induction l as [| x l [IH | (l1 & j & l2 & v & -> & Hj & Hlast)]].
  - left. intros i v Hi. by apply elem_of_nil in Hi.
  - destruct (entry_of T (resolution_at w factory fc x)) as [[k' v'] |]
      eqn:Hx.
    + destruct (decide (k' = k)) as [-> | Hne].
      * right. exists [], x, l, v'. split; [done |]. split; [done |].
        intros i v Hi. by apply IH.
      * left. intros i v [-> | Hi]%elem_of_cons; [| by apply IH].
        rewrite Hx. congruence.
    + left. intros i v [-> | Hi]%elem_of_cons; [by rewrite Hx | by apply IH].
  - right. exists (x :: l1), j, l2, v. done.
Qed.

Lemma loop_untouched_key w factory fc T l s s' k :
  for_each l (init_family w factory fc) s = Returned tt s' →
  (∀ i v, i ∈ l → entry_of T (resolution_at w factory fc i) ≠ Some (k, v)) →
  table_of T s' !! k = table_of T s !! k.
Proof.
  intros Hrun Hnone.
  apply (loop_table_ind w factory fc T (λ m, m !! k = table_of T s !! k)
           l s s'); [| done | done].
  intros i m Hi Hm.
  destruct (entry_of T (resolution_at w factory fc i)) as [[k' v'] |]
    eqn:Hentry; simpl; [| done].
  rewrite lookup_insert_ne; [done |]. intros ->.
  by destruct (Hnone i v').
Qed.

(** X9. After a call of [init] that enumerates the font set, a table
    holds a key exactly when it held it before or some enumerated family
    resolved with that key, and every value it holds under a key was there
    before or is the value some enumerated family resolved with for that
    key: [init] writes nothing else. *)
Theorem init_table_contents (w : World) (factory : IDWriteFactory)
    (fc : IDWriteFontCollection) (s s' : State) (T : Table) (k : string) :
  enumerates w factory fc →
  init w s = Returned true s' →
  (is_Some (table_of T s' !! k)
   ↔ is_Some (table_of T s !! k)
     ∨ ∃ j v, 0 ≤ j < family_count fc
              ∧ entry_of T (resolution_at w factory fc j) = Some (k, v))
  ∧ (∀ v, table_of T s' !! k = Some v →
          table_of T s !! k = Some v
          ∨ ∃ j, 0 ≤ j < family_count fc
                 ∧ entry_of T (resolution_at w factory fc j) = Some (k, v)).
Proof.
  intros Henum Hinit.
  destruct (init_returned w factory fc s true s' Henum Hinit) as [_ Hrun].
  assert (∀ v, table_of T s' !! k = Some v →
               table_of T s !! k = Some v
               ∨ ∃ j, 0 ≤ j < family_count fc
                      ∧ entry_of T (resolution_at w factory fc j)
                        = Some (k, v)) as Hvalues.
  { apply (loop_table_ind w factory fc T
             (λ m, ∀ v, m !! k = Some v →
                        table_of T s !! k = Some v
                        ∨ ∃ j, 0 ≤ j < family_count fc
                               ∧ entry_of T (resolution_at w factory fc j)
                                 = Some (k, v))
             (seqZ 0 (family_count fc)) s s'); [| by left | done].
    intros i m Hi Hm v. apply elem_of_seqZ in Hi.
    destruct (entry_of T (resolution_at w factory fc i)) as [[k' v'] |]
      eqn:Hentry; simpl; [| by apply Hm].
    rewrite lookup_insert. case_decide as Hk; [| by apply Hm].
    intros ?. simplify_eq. right. exists i. split; [lia | done]. }
  split; [| done]. split.
  - intros [v Hv]. destruct (Hvalues v Hv) as [Hold | (j & Hj & Hentry)].
    + left. by exists v.
    + right. by exists j, v.
  - intros [Hold | (j & v & Hj & Hentry)].
    + by eapply loop_keeps_keys.
    + destruct (last_entry_for_key w factory fc T k
                  (seqZ 0 (family_count fc)))
        as [Hnone | (l1 & j' & l2 & v' & Hsplit & Hlast & Hafter)].
      * destruct (Hnone j v); [| done]. apply elem_of_seqZ. lia.
      * rewrite Hsplit in Hrun. exists v'.
        apply (loop_last_write w factory fc T l1 j' l2 s s' k v' Hrun Hlast).
        intros i v'' Hi Hentry'. by destruct (Hafter i v'').
Qed.

Lemma init_table_contents_witness :
  is_Some (gdi_to_directwrite arial_state !! "Arial").
Proof.
  apply (proj2 (proj1 (init_table_contents arial_world
                         (factory_of arial_families arial_faces)
                         (font_collection arial_families)
                         initial_state arial_state Gdi_to_directwrite
                         "Arial" (conj eq_refl eq_refl) eq_refl))).
  right. exists 0, "Arial". split; [by vm_compute |]. vm_compute.
  reflexivity.
Defined.

(** X10. Calling [init] again in the same world changes nothing: the
    second call returns what the first returned and leaves both tables as
    the first call left them. *)
Theorem init_twice (w : World) (s s1 s2 : State) (b1 b2 : bool) :
  init w s = Returned b1 s1 →
  init w s1 = Returned b2 s2 →
  b2 = b1 ∧ same_tables s1 s2.
Proof.
  intros Hfirst Hsecond.
  destruct (fatal_or_enumerates w) as [Hfatal | (factory & fc & Henum)].
  - destruct (init_fatal w Hfatal s) as (t1 & Ht1 & _).
    destruct (init_fatal w Hfatal s1) as (t2 & Ht2 & Hsame).
    rewrite Ht1 in Hfirst. rewrite Ht2 in Hsecond. by simplify_eq.
  - destruct (init_returned w factory fc s b1 s1 Henum Hfirst) as [-> Hrun1].
    destruct (init_returned w factory fc s1 b2 s2 Henum Hsecond)
      as [-> Hrun2].
    split; [done |].
    assert (∀ T, table_of T s2 = table_of T s1) as Htables.
    { intros T. apply map_eq. intros k.
      destruct (last_entry_for_key w factory fc T k
                  (seqZ 0 (family_count fc)))
        as [Hnone | (l1 & j & l2 & v & Hsplit & Hlast & Hafter)].
      - by eapply loop_untouched_key.
      - rewrite Hsplit in Hrun1, Hrun2.
        assert (∀ i v', i ∈ l2 →
                  entry_of T (resolution_at w factory fc i) = Some (k, v') →
                  v' = v) as Hafter'.
        { intros i v' Hi Hentry. by destruct (Hafter i v'). }
        rewrite (loop_last_write w factory fc T l1 j l2 s s1 k v
                   Hrun1 Hlast Hafter').
        by rewrite (loop_last_write w factory fc T l1 j l2 s1 s2 k v
                      Hrun2 Hlast Hafter'). }
    split; [apply (Htables Gdi_to_directwrite)
           | apply (Htables Directwrite_to_gdi)].
Qed.

Lemma init_twice_witness :
  ∃ s2, init arial_world arial_state = Returned true s2
        ∧ same_tables arial_state s2.
Proof.
  destruct (init arial_world arial_state) as [b2 s2 |] eqn:Hsecond;
    [| by vm_compute in Hsecond].
  destruct (init_twice arial_world initial_state arial_state s2 true b2
              eq_refl Hsecond) as [-> Hsame].
  by exists s2.
Defined.

Lemma for_each_ext (l : list Z) (body1 body2 : Z → M unit) s :
  (∀ i s0, i ∈ l → body1 i s0 = body2 i s0) →
  for_each l body1 s = for_each l body2 s.
Proof.
  revert s. induction l as [| i l IH]; intros s Hext; [done |].
  cbn [for_each]. unfold mbind, M_bind.
  rewrite (Hext i s); [| left].
  destruct (body2 i s) as [[] s1 |]; [| done].
  apply IH. intros j s0 Hj. apply Hext. by right.
Qed.

(** X11. [init] asks the font collection for the families at the indices
    from 0 up to its count and for no other: a collection with the same
    count and the same families at those indices, whatever it would answer
    elsewhere, gives the same outcome and the same state. *)
Theorem init_reads_families_in_range (w : World) (factory : IDWriteFactory)
    (fc fc' : IDWriteFontCollection) (s : State) :
  enumerates w factory fc →
  GetFontFamilyCount fc' = GetFontFamilyCount fc →
  (∀ i, 0 ≤ i < family_count fc →
        GetFontFamily fc' (Z.to_N i) = GetFontFamily fc (Z.to_N i)) →
  init (with_font_collection w fc') s = init w s.
Proof.
  intros Henum Hcount Hfamilies.
  rewrite (init_loop w factory fc s Henum).
  pose proof Henum as [Hfactory Hfc].
  rewrite (init_loop (with_font_collection w fc')
             {| GetSystemFontCollection := SUCCEEDED fc';
                GetGdiInterop := GetGdiInterop factory |} fc' s).
  2: { split; simpl; [by rewrite Hfactory | done]. }
  assert (family_count fc' = family_count fc) as ->.
  { unfold family_count. by rewrite Hcount. }
  unfold mbind, M_bind.
  rewrite (for_each_ext _ _ (init_family w factory fc)); [done |].
  intros i s0 Hi. apply elem_of_seqZ in Hi.
  unfold init_family. rewrite Hfamilies by lia. reflexivity.
Qed.

Lemma init_reads_families_in_range_witness :
  init (with_font_collection arial_world arial_collection_with_tail)
    initial_state
  = init arial_world initial_state.
Proof.
  apply (init_reads_families_in_range arial_world
           (factory_of arial_families arial_faces)
           (font_collection arial_families)).
  - split; reflexivity.
  - reflexivity.
  - intros i Hi.
    change (family_count (font_collection arial_families)) with 2 in Hi.
    assert (i = 0 ∨ i = 1) as [-> | ->] by lia; reflexivity.
Defined.

(** ** The lookups, exactly *)

(** X12. When the key is built without an exception, a lookup is the
    lookup of its table and nothing more: it returns the value stored
    under exactly that key, or the null pointer when there is none, and
    leaves the whole state, tables and log, as it was.  A lookup returns
    a value only in that case. *)
Theorem lookup_is_exact (w : World) (key : string) (s : State) :
  (std_string w key = None →
   get_gdi_family_from_directwrite w key s
   = Returned (directwrite_to_gdi s !! key) s
   ∧ get_directwrite_family_from_gdi w key s
     = Returned (gdi_to_directwrite s !! key) s)
  ∧ (∀ v, (∃ s', get_gdi_family_from_directwrite w key s
                 = Returned (Some v) s')
          ↔ std_string w key = None ∧ directwrite_to_gdi s !! key = Some v)
  ∧ (∀ v, (∃ s', get_directwrite_family_from_gdi w key s
                 = Returned (Some v) s')
          ↔ std_string w key = None ∧ gdi_to_directwrite s !! key = Some v).
Proof.
  assert (∀ table, std_string w key = None →
            value_or_null (try_at w table key) = table !! key) as Hbuilt.
  { intros table Hkey. unfold try_at, unordered_map_at. rewrite Hkey.
    by destruct (table !! key). }
  assert (∀ table v, value_or_null (try_at w table key) = Some v →
            std_string w key = None ∧ table !! key = Some v) as Hvalue.
  { intros table v. unfold try_at, unordered_map_at.
    destruct (std_string w key); [done |].
    by destruct (table !! key); intros ?; simplify_eq/=. }
  split; [| split].
  - intros Hkey.
    unfold get_gdi_family_from_directwrite, get_directwrite_family_from_gdi,
      mbind, M_bind, get_state, try_at, unordered_map_at.
    rewrite Hkey.
    by destruct (directwrite_to_gdi s !! key),
                (gdi_to_directwrite s !! key).
  - intros v.
    destruct (get_gdi_family_from_directwrite_spec w key s)
      as (s1 & Hrun & _).
    rewrite Hrun. split.
    + intros (s' & Heq). apply Hvalue. by simplify_eq.
    + intros [Hkey Hhit]. exists s1. by rewrite Hbuilt, Hhit.
  - intros v.
    destruct (get_directwrite_family_from_gdi_spec w key s)
      as (s1 & Hrun & _).
    rewrite Hrun. split.
    + intros (s' & Heq). apply Hvalue. by simplify_eq.
    + intros [Hkey Hhit]. exists s1. by rewrite Hbuilt, Hhit.
Qed.

Lemma lookup_is_exact_witness :
  get_gdi_family_from_directwrite arial_world "arial black" arial_state
  = Returned None arial_state
  ∧ get_directwrite_family_from_gdi arial_world "arial black" arial_state
    = Returned None arial_state.
Proof.
  apply (proj1 (lookup_is_exact arial_world "arial black" arial_state)
           eq_refl).
Defined.

(** ** A library built at [LOG_CRITICAL] *)

Lemma keeps_cerr_ret {A} (a : A) : keeps_cerr (mret a).
Proof. by intros s. Qed.

Lemma keeps_cerr_terminate {A} : keeps_cerr (@terminate A).
Proof. by intros s. Qed.

Lemma keeps_cerr_bind {A B} (m : M A) (f : A → M B) :
  keeps_cerr m → (∀ a, keeps_cerr (f a)) → keeps_cerr (m ≫= f).
Proof.
  intros Hm Hf s. specialize (Hm s). unfold mbind, M_bind.
  destruct (m s) as [a s1 |]; [| done].
  specialize (Hf a s1). destruct (f a s1); [congruence | done].
Qed.

Lemma keeps_cerr_for_each l (body : Z → M unit) :
  (∀ i, keeps_cerr (body i)) → keeps_cerr (for_each l body).
Proof.
  intros Hbody. induction l as [| i l IH]; [apply keeps_cerr_ret |].
  cbn [for_each]. apply keeps_cerr_bind; [apply Hbody | by intros _].
Qed.

Section critical.

Context (w : World).
Hypothesis Hcritical : LOG_LEVEL w = LOG_CRITICAL.
Hypothesis Hformat : ∀ hr, FormatMessage w hr ≠ None.

Lemma critical_log_debug msg : keeps_cerr (log_debug (logger w) msg).
Proof. intros s. unfold log_debug, logger. simpl. by rewrite Hcritical. Qed.

Lemma critical_log_warning msg : keeps_cerr (log_warning (logger w) msg).
Proof. intros s. unfold log_warning, logger. simpl. by rewrite Hcritical. Qed.

Lemma critical_log_error msg : keeps_cerr (log_error (logger w) msg).
Proof. intros s. unfold log_error, logger. simpl. by rewrite Hcritical. Qed.

Lemma critical_get_win_error_msg hr : keeps_cerr (get_win_error_msg w hr).
Proof.
  unfold get_win_error_msg. pose proof (Hformat hr).
  destruct (FormatMessage w hr); [apply keeps_cerr_ret | done].
Qed.

(** Walks down a function of the library: binds, the logger's calls, then
    the scrutinee of each [match]. *)
Ltac keeps_cerr_tree :=
  repeat first
    [ apply keeps_cerr_ret
    | apply keeps_cerr_terminate
    | apply critical_log_debug
    | apply critical_log_warning
    | apply critical_log_error
    | apply critical_get_win_error_msg
    | apply keeps_cerr_bind; [| intros ?]
    | match goal with
      | |- keeps_cerr (match ?x with _ => _ end) => destruct x
      end ].

Lemma critical_get_family_name_of_cur_locale font_family :
  keeps_cerr (get_family_name_of_cur_locale w font_family).
Proof. unfold get_family_name_of_cur_locale. keeps_cerr_tree. Qed.

Lemma critical_get_gdi_and_directwrite_family_name factory font_family :
  keeps_cerr (get_gdi_and_directwrite_family_name w factory font_family).
Proof.
  unfold get_gdi_and_directwrite_family_name.
  apply keeps_cerr_bind; [apply critical_get_family_name_of_cur_locale |].
  intros r. keeps_cerr_tree.
Qed.

Lemma critical_init_family factory fc i :
  keeps_cerr (init_family w factory fc i).
Proof.
  unfold init_family. destruct (GetFontFamily fc (Z.to_N i)).
  - apply keeps_cerr_bind;
      [apply critical_get_gdi_and_directwrite_family_name |].
    intros [[gdi dw] |]; [| apply critical_log_warning].
    apply keeps_cerr_bind; [by intros s |]. intros _.
    apply keeps_cerr_bind; [by intros s |]. intros _.
    apply critical_log_debug.
  - keeps_cerr_tree.
Qed.

Lemma critical_init : keeps_cerr (init w).
Proof.
  unfold init. destruct (DWriteCreateFactory w) as [factory | hr];
    [| keeps_cerr_tree].
  destruct (GetSystemFontCollection factory) as [fc | hr];
    [| keeps_cerr_tree].
  apply keeps_cerr_bind; [| intros _; apply keeps_cerr_ret].
  apply keeps_cerr_for_each. apply critical_init_family.
Qed.

Lemma critical_get_gdi_family_from_directwrite key :
  keeps_cerr (get_gdi_family_from_directwrite w key).
Proof.
  unfold get_gdi_family_from_directwrite.
  apply keeps_cerr_bind; [by intros s |]. intros s0. keeps_cerr_tree.
Qed.

Lemma critical_get_directwrite_family_from_gdi key :
  keeps_cerr (get_directwrite_family_from_gdi w key).
Proof.
  unfold get_directwrite_family_from_gdi.
  apply keeps_cerr_bind; [by intros s |]. intros s0. keeps_cerr_tree.
Qed.

End critical.

(** X13. The library never logs at the critical level: built with
    [LOG_LEVEL] set to [LOG_CRITICAL], and with [FormatMessage] finding a
    text for every code, [init], [cleanup] and both lookups write nothing
    to [std::cerr], whatever fails. *)
Theorem silent_at_log_critical (w : World) :
  LOG_LEVEL w = LOG_CRITICAL →
  (∀ hr, FormatMessage w hr ≠ None) →
  keeps_cerr (init w)
  ∧ keeps_cerr cleanup
  ∧ (∀ key, keeps_cerr (get_gdi_family_from_directwrite w key))
  ∧ (∀ key, keeps_cerr (get_directwrite_family_from_gdi w key)).
Proof.
  intros Hcritical Hformat. split; [by apply critical_init |].
  split; [by intros s |]. split; intros key.
  - by apply critical_get_gdi_family_from_directwrite.
  - by apply critical_get_directwrite_family_from_gdi.
Qed.

Lemma silent_at_log_critical_witness :
  keeps_cerr (init critical_arial_world).
Proof.
  apply (silent_at_log_critical critical_arial_world); [reflexivity |].
  intros hr. discriminate.
Defined.

(** ** Lookups in the states a process reaches *)

Lemma reachable_invariant s : reachable s → cross_table_invariant s.
Proof.
  induction 1 as [| s s' _ IH Hstep].
  - split; intros k v Hkv; simpl in Hkv; by rewrite lookup_empty in Hkv.
  - destruct (operation_step_cases s s' Hstep) as [(w & b & Hinit) | Hsame].
    + by eapply init_keeps_invariant.
    + by eapply same_tables_invariant.
Qed.

(** X14. In every state a process reaches, what one lookup returns the
    other lookup finds: when [get_directwrite_family_from_gdi] returns a
    name, [get_gdi_family_from_directwrite] of that name returns some
    name, not the null pointer, and the other way round (the key of the
    second lookup being built without an exception). *)
Theorem lookup_result_is_a_key (w : World) (s : State) (k v : string) :
  reachable s →
  std_string w v = None →
  ((∃ s', get_directwrite_family_from_gdi w k s = Returned (Some v) s') →
   ∃ k' s', get_gdi_family_from_directwrite w v s = Returned (Some k') s')
  ∧ ((∃ s', get_gdi_family_from_directwrite w k s = Returned (Some v) s') →
     ∃ k' s', get_directwrite_family_from_gdi w v s = Returned (Some k') s').
Proof.
  intros Hreach Hkey.
  destruct (reachable_invariant s Hreach) as [Hgdi Hdw].
  assert (∀ table k v, value_or_null (try_at w table k) = Some v →
            table !! k = Some v) as Hvalue.
  { intros table k0 v0. unfold try_at, unordered_map_at.
    destruct (std_string w k0); [done |].
    by destruct (table !! k0); intros ?; simplify_eq/=. }
  split; intros (s' & Hrun).
  - destruct (get_directwrite_family_from_gdi_spec w k s) as (s1 & Hk & _).
    rewrite Hk in Hrun. simplify_eq.
    destruct (Hgdi k v) as [k' Hk']; [by apply Hvalue |].
    destruct (get_gdi_family_from_directwrite_spec w v s) as (s2 & Hv & _).
    exists k', s2. by rewrite Hv, (try_at_hit _ _ _ _ Hkey Hk').
  - destruct (get_gdi_family_from_directwrite_spec w k s) as (s1 & Hk & _).
    rewrite Hk in Hrun. simplify_eq.
    destruct (Hdw k v) as [k' Hk']; [by apply Hvalue |].
    destruct (get_directwrite_family_from_gdi_spec w v s) as (s2 & Hv & _).
    exists k', s2. by rewrite Hv, (try_at_hit _ _ _ _ Hkey Hk').
Qed.

Lemma lookup_result_is_a_key_witness :
  ∃ k' s', get_gdi_family_from_directwrite arial_world "Arial Black"
             arial_state = Returned (Some k') s'.
Proof.
  apply (proj1 (lookup_result_is_a_key arial_world arial_state "Arial"
                  "Arial Black"
                  (reachable_step initial_state arial_state reachable_start
                     (step_init arial_world initial_state true arial_state
                        eq_refl))
                  eq_refl)).
  eexists. vm_compute. reflexivity.
Defined.

(** ** The log of [init] *)

Lemma init_family_cerr w factory fc i s s' :
  init_family w factory fc i s = Returned tt s' →
  ∃ lines,
    cerr s' = cerr s ++ lines
    ∧ (LOG_LEVEL w = LOG_DEBUG → ∀ gdi dw,
         resolution_at w factory fc i = Resolved gdi dw →
         debug_line w gdi dw ∈ lines).
Proof.
  unfold init_family, resolution_at.
  destruct (GetFontFamily fc (Z.to_N i)) as [font_family | hr].
  - destruct (logs_only_get_gdi_and_directwrite_family_name w factory
                font_family) as [Hend | (r & lines & Hret)].
    { intros Hrun. by rewrite (bind_terminated _ _ _ (Hend s)) in Hrun. }
    rewrite (bind_returned _ _ _ _ _ (Hret s)), Hret.
    destruct r as [[gdi dw] |].
    + unfold mbind, M_bind, gdi_to_directwrite_assign,
        directwrite_to_gdi_assign, log_debug, write_cerr, mret, M_ret.
      simpl.
      destruct (LogLevel_value (LOG_LEVEL w) <=? 10) eqn:Hlevel;
        intros Hrun; simplify_eq; simpl.
      * exists (lines ++ [debug_line w gdi dw]).
        split; [by rewrite app_assoc |].
        intros _ g d ?. simplify_eq. apply elem_of_app. right. by left.
      * exists lines. split; [done |].
        intros Hdebug. by rewrite Hdebug in Hlevel.
    + destruct (logs_only_log_warning (logger w)
        ("Getting gdi and directwrite family name failed for IDWriteFontFamily : "
         +:+ to_string (address font_family)))
        as [Hend | ([] & lines' & Hlog)].
      { intros Hrun. by rewrite Hend in Hrun. }
      rewrite Hlog. intros ?. simplify_eq. exists (lines ++ lines').
      split; [simpl; by rewrite app_assoc | done].
  - assert (logs_only (msg ← get_win_error_msg w hr;
                       log_error (logger w)
                         ("GetFontFamily() failed : " +:+ msg))) as Hlogs.
    { apply logs_only_bind;
        [apply logs_only_get_win_error_msg | intros; apply logs_only_log_error]. }
    destruct Hlogs as [Hend | ([] & lines & Hret)].
    { intros Hrun. by rewrite Hend in Hrun. }
    rewrite Hret. intros ?. simplify_eq. by exists lines.
Qed.

Lemma loop_cerr w factory fc l s s' :
  for_each l (init_family w factory fc) s = Returned tt s' →
  ∃ lines,
    cerr s' = cerr s ++ lines
    ∧ (LOG_LEVEL w = LOG_DEBUG → ∀ i gdi dw, i ∈ l →
         resolution_at w factory fc i = Resolved gdi dw →
         debug_line w gdi dw ∈ lines).
Proof.
  revert s. induction l as [| j l IH]; intros s Hrun.
  - rewrite for_each_nil in Hrun. simplify_eq. exists [].
    split; [by rewrite app_nil_r |].
    intros _ i gdi dw Hi. by apply elem_of_nil in Hi.
  - rewrite for_each_cons in Hrun.
    destruct (init_family w factory fc j s) as [[] s1 |] eqn:Hstep;
      [| done].
    destruct (init_family_cerr w factory fc j s s1 Hstep)
      as (lines1 & Hcerr1 & Hdebug1).
    destruct (IH s1 Hrun) as (lines2 & Hcerr2 & Hdebug2).
    exists (lines1 ++ lines2).
    split; [by rewrite Hcerr2, Hcerr1, app_assoc |].
    intros Hlevel i gdi dw [-> | Hi]%elem_of_cons Hres; apply elem_of_app.
    + left. by apply Hdebug1.
    + right. by eapply Hdebug2.
Qed.

(** X15. A call of [init] that enumerates the font set only adds lines
    to [std::cerr]; built with [LOG_LEVEL] set to [LOG_DEBUG], it reports
    every pair it writes to the tables: for each enumerated family that
    resolves, the added lines hold "DEBUG:font_family_util:" followed by
    the legacy name, "(gdi) : ", the modern name and "(directwrite)". *)
Theorem init_reports_resolved_pairs (w : World) (factory : IDWriteFactory)
    (fc : IDWriteFontCollection) (s s' : State) :
  enumerates w factory fc →
  init w s = Returned true s' →
  ∃ lines,
    cerr s' = cerr s ++ lines
    ∧ (LOG_LEVEL w = LOG_DEBUG → ∀ j gdi dw,
         0 ≤ j < family_count fc →
         resolution_at w factory fc j = Resolved gdi dw →
         "DEBUG:font_family_util:" +:+ gdi +:+ "(gdi) : " +:+ dw
           +:+ "(directwrite)" ∈ lines).
Proof.
  intros Henum Hinit.
  destruct (init_returned w factory fc s true s' Henum Hinit) as [_ Hrun].
  destruct (loop_cerr w factory fc _ s s' Hrun) as (lines & Hcerr & Hdebug).
  exists lines. split; [done |].
  intros Hlevel j gdi dw Hj Hres.
  apply (Hdebug Hlevel j gdi dw); [| done]. apply elem_of_seqZ. lia.
Qed.

Lemma init_reports_resolved_pairs_witness :
  ∃ s' lines,
    init debug_arial_world initial_state = Returned true s'
    ∧ cerr s' = cerr initial_state ++ lines
    ∧ "DEBUG:font_family_util:Arial(gdi) : Arial Black(directwrite)"
      ∈ lines.
Proof.
  destruct (init debug_arial_world initial_state) as [b s' |] eqn:Hinit;
    [| by vm_compute in Hinit].
  assert (b = true) as -> by (vm_compute in Hinit; by simplify_eq).
  destruct (init_reports_resolved_pairs debug_arial_world
              (factory_of arial_families arial_faces)
              (font_collection arial_families) initial_state s'
              (conj eq_refl eq_refl) Hinit) as (lines & Hcerr & Hdebug).
  exists s', lines. split; [done |]. split; [done |].
  apply (Hdebug eq_refl 1 "Arial" "Arial Black"); [by vm_compute |].
  vm_compute. reflexivity.
Defined.

(** ** The resolvers and the tables *)

(** X16. The two resolvers and [get_win_error_msg] neither read nor write
    the tables: each does the same from every state, ending the process or
    returning one value after adding the same lines to [std::cerr], and
    leaves both tables as they are. *)
Theorem resolvers_ignore_the_state (w : World) (factory : IDWriteFactory)
    (font_family : IDWriteFontFamily) (hr : HRESULT) :
  logs_only (get_family_name_of_cur_locale w font_family)
  ∧ logs_only (get_gdi_and_directwrite_family_name w factory font_family)
  ∧ logs_only (get_win_error_msg w hr)
  ∧ ∀ s1 s2,
      returned_value
        (get_gdi_and_directwrite_family_name w factory font_family s1)
      = returned_value
          (get_gdi_and_directwrite_family_name w factory font_family s2).
Proof.
  split; [apply logs_only_get_family_name_of_cur_locale |].
  split; [apply logs_only_get_gdi_and_directwrite_family_name |].
  split; [apply logs_only_get_win_error_msg |].
  intros s1 s2.
  destruct (logs_only_get_gdi_and_directwrite_family_name w factory
              font_family) as [Hend | (r & lines & Hret)].
  - by rewrite !Hend.
  - by rewrite !Hret.
Qed.
